(** * liquidator: the parallel FASTA region scorer (fasta_scorer.cpp)

    A shallow embedding of [liquidator::Scorer::score], [get_file_contents]
    and [process_fasta], and the properties of the scan that the design
    document states.

    Conventions.
    - [size_t] values are integers in [0, 2^64); every C++ addition or
      subtraction on them is followed by [wrap].  [npos] is [2^64 - 1].
    - [std::string] is a list of bytes ([ascii]); [double] is the binary64
      type [float] of the kernel, so that [pvalue < 0.001] is the IEEE
      comparison the compiled program performs.
    - The three loops of [Scorer::score] take fuel.  A result [None] means
      that the loop did not leave within the fuel.
    - The loops never test the state of the string stream, so their trace
      lists the lines they insert, each with how far the stream took it;
      the content of the stream is computed from the trace ([ss_of]). *)

From Stdlib Require Import ZArith List Ascii String Floats Lia Bool.
From Stdlib Require Import Permutation Sorted DecimalString.
Import ListNotations.

#[local] Open Scope Z_scope.
#[local] Set Warnings "-inexact-float".

(** ** [size_t] arithmetic *)

Module SizeT.

Definition modulus : Z := 2 ^ 64.

(** [std::string::npos], i.e. [size_t(-1)]. *)
Definition npos : Z := modulus - 1.

Definition wrap (z : Z) : Z := z mod modulus.

(** A [size_t] passed as a [std::streamsize], a signed integer of 64 bits. *)
Definition to_streamsize (z : Z) : Z := if z <? 2 ^ 63 then z else z - modulus.

End SizeT.
Import SizeT.

(** ** The part of [std::string] the scorer uses *)

Module Str.

Definition size (s : list ascii) : Z := Z.of_nat (List.length s).

(** [s[i]]; the byte at [size s] is the terminating zero. *)
Definition at_ (s : list ascii) (i : Z) : ascii :=
  nth (Z.to_nat i) s Ascii.zero.

(** [len] bytes from offset [pos] ([ss.write(s.data() + pos, len)]); the
    bytes a C++ program would read after the terminating zero are not part
    of the model. *)
Definition substr (s : list ascii) (pos len : Z) : list ascii :=
  firstn (Z.to_nat len) (skipn (Z.to_nat pos) s).

(** [ss.write(p, count)] takes its count as a [std::streamsize]: with a
    negative count it writes nothing and sets the stream's [badbit], after
    which every insertion is dropped. *)
Definition write_refused (count : Z) : bool := to_streamsize count <? 0.

(** Scan of the suffix [s] that starts at absolute index [i]. *)
Fixpoint find_in (s : list ascii) (c : ascii) (i : Z) : Z :=
  match s with
  | [] => npos
  | x :: t => if Ascii.eqb x c then i else find_in t c (i + 1)
  end.

(** [s.find_first_of(c, pos)]: the least index [>= pos] holding [c], or
    [npos]. *)
Definition find_first_of (s : list ascii) (c : ascii) (pos : Z) : Z :=
  if pos <? size s then find_in (skipn (Z.to_nat pos) s) c pos else npos.

End Str.
Import Str.

Definition gt_char : ascii := ">"%char.
Definition newline : ascii := "010"%char.
Definition tab : ascii := "009"%char.

Definition bytes (s : string) : list ascii := list_ascii_of_string s.

(** A text line followed by its line break. *)
Definition line (s : string) : list ascii := bytes s ++ [newline].

(** ** Scoring matrices *)

(** A row of a position weight matrix: one scaled score per base. *)
Definition Row : Type := list Z.

(** The accessors of [ScoreMatrix] that [Scorer::score] calls. *)
Record ScoreMatrix : Type := {
  name : list ascii;
  matrix : list Row;
  pvalues : list float;
  scale : float;
  min_before_scaling : float;
  is_reverse_complement : bool
}.

(** [matrix.matrix().size()] *)
Definition msize (m : ScoreMatrix) : Z := Z.of_nat (List.length (matrix m)).

(** [double(x)] for an unsigned integer below [2^63]. *)
Definition double_of (z : Z) : float := PrimFloat.of_uint63 (Uint63.of_Z z).

(** The significance threshold of line 140. *)
Definition threshold : float := 0.001%float.

(** [pvalue < 0.001] *)
Definition significant (pvalue : float) : bool := PrimFloat.ltb pvalue threshold.

(** ** Matches *)

(** How far the string stream took the insertions of one line: all of
    them; or those before the [ss.write] of the record name (line 148),
    which it refused; or those before the [ss.write] of the matched sequence
    (line 176), which it refused. *)
Inductive Fate : Type :=
| Complete
| NameRefused
| TextRefused.

(** What one pass through lines 142-180 inserts into the string stream,
    field by field ([sequence_name] and [matched_sequence] are the bytes
    handed to the stream), and how far the stream took them. *)
Record Match : Type := {
  pattern_name : list ascii;
  sequence_name : list ascii;
  sequence_start : Z;
  sequence_stop : Z;
  strand : ascii;
  unscaled_score : float;
  match_pvalue : float;
  matched_sequence : list ascii;
  fate : Fate
}.

(** One evaluation of a window: which matrix of the list (its position),
    the window [[w_begin, w_end)], and the line inserted, if any. *)
Record Visit : Type := {
  w_matrix : nat;
  w_begin : Z;
  w_end : Z;
  w_pvalue : float;
  w_line : option Match
}.

(** One iteration of the [while (true)] loop that reached line 117. *)
Record RecordTrace : Type := {
  r_name_begin : Z;
  r_name_end : Z;
  r_sequence_begin : Z;
  r_sequence_end : Z;
  r_visits : list Visit
}.

Definition bind {A B : Type} (x : option A) (f : A -> option B) : option B :=
  match x with
  | Some a => f a
  | None => None
  end.

Notation "x <- e ;; k" := (bind e (fun x => k))
  (at level 61, e at next level, right associativity).

(** ** [Scorer::score] *)

Section Scorer.

(** [detail::score] (detail/score_matrix_detail.h) and [complement] are
    declared outside fasta_scorer.cpp; the scorer is parametric in them. *)
Variable detail_score : list Row -> list ascii -> Z -> Z -> Z.
Variable complement : ascii -> ascii.

Variable matrices : list ScoreMatrix.
Variable fasta : list ascii.

(** Lines 165-172: [for (size_t i = begin + size - 1; ; --i)]. *)
Fixpoint rc_loop (fuel : nat) (i begin : Z) : option (list ascii) :=
  match fuel with
  | O => None
  | S fuel' =>
      let c := complement (at_ fasta i) in
      if i =? begin then Some [c]
      else rest <- rc_loop fuel' (wrap (i - 1)) begin ;; Some (c :: rest)
  end.

(** Lines 142-180: the fields of the line written for the window
    [[begin, end_)] of the record whose name is [[name_begin, name_end)];
    [text] is what lines 161-178 produced. *)
Definition match_line (m : ScoreMatrix)
    (name_begin name_end sequence_begin begin end_ scaled_score : Z)
    (pvalue : float) (text : list ascii) : Match :=
  let name_length := wrap (name_end - name_begin) in
  let sequence_start := wrap (wrap (begin - sequence_begin) + 1) in
  let sequence_stop := wrap (end_ - sequence_begin) in
  let unscaled_score :=
    (double_of scaled_score / scale m
     + double_of (msize m) * min_before_scaling m)%float in
  {| pattern_name := name m;
     sequence_name := substr fasta name_begin name_length;
     sequence_start := sequence_start;
     sequence_stop := sequence_stop;
     strand := if is_reverse_complement m then "-"%char else "+"%char;
     unscaled_score := unscaled_score;
     match_pvalue := pvalue;
     matched_sequence := text;
     fate :=
       if write_refused name_length then NameRefused
       else if negb (is_reverse_complement m) && write_refused (msize m)
            then TextRefused
            else Complete |}.

(** Lines 133-181: the body of the window loop.  [n] is the fuel handed to
    the inner loop; [pvalues[scaled_score]] outside the table is excluded
    by the assertion of line 138 and reads as NaN here. *)
Definition score_window (n : nat) (k : nat) (m : ScoreMatrix)
    (name_begin name_end sequence_begin begin end_ : Z) : option Visit :=
  let scaled_score := detail_score (matrix m) fasta begin end_ in
  let pvalue := nth (Z.to_nat scaled_score) (pvalues m) PrimFloat.nan in
  if significant pvalue then
    text <- (if is_reverse_complement m
             then rc_loop n (wrap (wrap (begin + msize m) - 1)) begin
             else Some (substr fasta begin (msize m))) ;;
    Some {| w_matrix := k; w_begin := begin; w_end := end_;
            w_pvalue := pvalue;
            w_line := Some (match_line m name_begin name_end sequence_begin
                              begin end_ scaled_score pvalue text) |}
  else
    Some {| w_matrix := k; w_begin := begin; w_end := end_;
            w_pvalue := pvalue; w_line := None |}.

(** Lines 126-182: [for (begin = sequence_begin, end = sequence_begin + size;
    end <= sequence_end; ++begin, ++end)]. *)
Fixpoint window_loop (n fuel : nat) (k : nat) (m : ScoreMatrix)
    (name_begin name_end sequence_begin sequence_end begin end_ : Z)
    : option (list Visit) :=
  match fuel with
  | O => None
  | S fuel' =>
      if end_ <=? sequence_end then
        v <- score_window n k m name_begin name_end sequence_begin begin end_ ;;
        vs <- window_loop n fuel' k m name_begin name_end sequence_begin
                sequence_end (wrap (begin + 1)) (wrap (end_ + 1)) ;;
        Some (v :: vs)
      else Some []
  end.

(** Lines 124-183: [for (const auto& matrix : matrices)]; [k] is the
    position of the head of [ms] in [matrices]. *)
Fixpoint matrices_loop (n : nat) (k : nat) (ms : list ScoreMatrix)
    (name_begin name_end sequence_begin sequence_end : Z)
    : option (list Visit) :=
  match ms with
  | [] => Some []
  | m :: ms' =>
      vs <- window_loop n n k m name_begin name_end sequence_begin
              sequence_end sequence_begin (wrap (sequence_begin + msize m)) ;;
      rest <- matrices_loop n (S k) ms' name_begin name_end sequence_begin
                sequence_end ;;
      Some (vs ++ rest)
  end.

(** Lines 117-183 for the header marker at [name_begin - 1]. *)
Definition score_record (n : nat) (name_begin : Z) : option RecordTrace :=
  let name_end := find_first_of fasta newline (wrap (name_begin + 1)) in
  let sequence_begin := wrap (name_end + 1) in
  let sequence_end := find_first_of fasta newline (wrap (sequence_begin + 1)) in
  vs <- matrices_loop n O matrices name_begin name_end sequence_begin
          sequence_end ;;
  Some {| r_name_begin := name_begin; r_name_end := name_end;
          r_sequence_begin := sequence_begin; r_sequence_end := sequence_end;
          r_visits := vs |}.

(** Lines 107-186: the [while (true)] loop. *)
Fixpoint score_loop (n fuel : nat) (region_begin region_end : Z)
    : option (list RecordTrace) :=
  match fuel with
  | O => None
  | S fuel' =>
      let name_begin := find_first_of fasta gt_char region_begin in
      if name_begin >=? region_end then Some []
      else
        let name_begin := wrap (name_begin + 1) in
        r <- score_record n name_begin ;;
        rest <- score_loop n fuel' (wrap (r_sequence_end r + 1)) region_end ;;
        Some (r :: rest)
  end.

(** [Scorer::score(region_begin, region_end)] with fuel [n] for each of its
    loops. *)
Definition score (n : nat) (region_begin region_end : Z)
    : option (list RecordTrace) :=
  score_loop n n region_begin region_end.

(** Lines 204-208: [score_fasta] runs the calling thread's scorer
    ([scorers.local()]) on one range. *)
Definition score_fasta (n : nat) (region_begin region_end : Z)
    : option (list RecordTrace) :=
  score n region_begin region_end.

(** One thread: it scores each range it is handed, one after the other,
    into the string stream of its scorer. *)
Fixpoint worker (n : nat) (regions : list (Z * Z)) : option (list RecordTrace) :=
  match regions with
  | [] => Some []
  | (region_begin, region_end) :: rest =>
      out <- score_fasta n region_begin region_end ;;
      more <- worker n rest ;;
      Some (out ++ more)
  end.

End Scorer.

(** The lines a trace inserts into the string stream, in order. *)
Definition lines_of_visits (vs : list Visit) : list Match :=
  flat_map (fun v => match w_line v with Some l => [l] | None => [] end) vs.

(** The stream takes the lines up to the first one with a refused write,
    keeps what it took of that one, and drops every later insertion: the
    scorer never clears the stream's state. *)
Fixpoint until_bad (ls : list Match) : list Match :=
  match ls with
  | [] => []
  | l :: rest =>
      match fate l with
      | Complete => l :: until_bad rest
      | _ => [l]
      end
  end.

(** The content of a scorer's string stream after the calls of a trace:
    the lines it holds, the last of which may be cut short. *)
Definition ss_of (rs : list RecordTrace) : list Match :=
  until_bad (flat_map (fun r => lines_of_visits (r_visits r)) rs).

(** ** Partitioning by [tbb::parallel_for]

    [process_fasta] hands [tbb::blocked_range<int>(0, fasta.size(), grainsize)]
    to [tbb::parallel_for] with [tbb::auto_partitioner].  The library is not
    part of the repository; what follows is its documented behaviour.  A
    [blocked_range] is divisible when [grainsize < size()]; splitting it
    cuts at [begin + (end - begin) / 2]; the automatic partitioner never
    splits an indivisible range, and splits a divisible one or hands it to
    the body as it is, as the load requires. *)

Module Tbb.

(** [size_t] to [int], the value type of the range. *)
Definition to_int (z : Z) : Z := (z + 2 ^ 31) mod 2 ^ 32 - 2 ^ 31.

Definition int_max : Z := 2 ^ 31 - 1.

Definition is_divisible (grainsize : Z) (r : Z * Z) : Prop :=
  grainsize < snd r - fst r.

Definition middle (r : Z * Z) : Z := fst r + (snd r - fst r) / 2.

(** The ranges the body can be called on, left to right, when the range
    [r] is executed. *)
Inductive leaves (grainsize : Z) : Z * Z -> list (Z * Z) -> Prop :=
| leaves_whole (r : Z * Z) : leaves grainsize r [r]
| leaves_split (r : Z * Z) (left right : list (Z * Z)) :
    is_divisible grainsize r ->
    leaves grainsize (fst r, middle r) left ->
    leaves grainsize (middle r, snd r) right ->
    leaves grainsize r (left ++ right).

(** The ranges on which the body of [parallel_for] runs for a range from 0
    to [end_]: none for an empty range. *)
Definition executed (grainsize end_ : Z) (regions : list (Z * Z)) : Prop :=
  if 0 <? end_ then leaves grainsize (0, end_) regions else regions = [].

(** Exhaustive splitting: every divisible range is split. *)
Inductive leaves_simple (grainsize : Z) : Z * Z -> list (Z * Z) -> Prop :=
| simple_whole (r : Z * Z) :
    ~ is_divisible grainsize r -> leaves_simple grainsize r [r]
| simple_split (r : Z * Z) (left right : list (Z * Z)) :
    is_divisible grainsize r ->
    leaves_simple grainsize (fst r, middle r) left ->
    leaves_simple grainsize (middle r, snd r) right ->
    leaves_simple grainsize r (left ++ right).

End Tbb.

(** ** [get_file_contents] and [process_fasta] *)

(** Line 239. *)
Definition grainsize : Z := 8400.

(** The regions [parallel_for] dispatches for a buffer of [N] bytes. *)
Definition dispatched (N : Z) (regions : list (Z * Z)) : Prop :=
  Tbb.executed grainsize (Tbb.to_int N) regions.

(** What the program sees of the file system: the bytes of a file that can
    be opened for reading, or the [errno] of the failure; and whether a path
    can be opened for writing. *)
Record FileSystem : Type := {
  contents : list ascii -> Z + list ascii;
  writable : list ascii -> bool
}.

Inductive result (A : Type) : Type :=
| Returned (a : A)
| Thrown (what : list ascii).
Arguments Returned {A} a.
Arguments Thrown {A} what.

Definition show_int (z : Z) : list ascii :=
  bytes (NilZero.string_of_int (Z.to_int z)).

(** Lines 53-72. *)
Definition get_file_contents (fs : FileSystem) (file_path : list ascii)
    : result (list ascii) :=
  match contents fs file_path with
  | inl errno =>
      Thrown (bytes "Failed to open file " ++ file_path
              ++ bytes ": error " ++ show_int errno)
  | inr bytes_read => Returned bytes_read
  end.

(** Line 231. *)
Definition header_line : list ascii :=
  bytes "#pattern name" ++ tab :: bytes "sequence name" ++ tab ::
  bytes "start" ++ tab :: bytes "stop" ++ tab :: bytes "strand" ++ tab ::
  bytes "score" ++ tab :: bytes "p-value" ++ tab :: bytes "q-value" ++ tab ::
  bytes "matched sequence" ++ [newline].

(** What a run of [process_fasta] that got past [get_file_contents] did:
    the ranges each thread scored, the lines each thread's stream held at
    the end ([None] when a call did not return), and the lines of the output
    file ([None] when the output stream could not be opened, in which case
    every insertion is dropped). *)
Record Run : Type := {
  scored : list (list (Z * Z));
  streams : option (list (list Match));
  file : option (list (list ascii))
}.

Section ProcessFasta.

Variable detail_score : list Row -> list ascii -> Z -> Z -> Z.
Variable complement : ascii -> ascii.

(** [operator<<] for a [double] under [precision(p)]. *)
Variable show_double : nat -> float -> list ascii.

(** Lines 147-180: the text the stream holds of one line, up to the write
    it refused, if any. *)
Definition render (l : Match) : list ascii :=
  pattern_name l ++ tab ::
  match fate l with
  | NameRefused => []
  | _ =>
      sequence_name l ++ tab ::
      show_int (sequence_start l) ++ tab ::
      show_int (sequence_stop l) ++ tab ::
      strand l :: tab ::
      show_double 6 (unscaled_score l) ++ tab ::
      show_double 3 (match_pvalue l) ++ tab ::
      tab ::
      match fate l with
      | Complete => matched_sequence l ++ [newline]
      | _ => []
      end
  end.

(** The streams of the threads of a schedule: each thread runs its ranges
    in turn. *)
Fixpoint run_threads (matrices : list ScoreMatrix) (fasta : list ascii)
    (n : nat) (schedule : list (list (Z * Z))) : option (list (list Match)) :=
  match schedule with
  | [] => Some []
  | regions :: rest =>
      out <- worker detail_score complement matrices fasta n regions ;;
      more <- run_threads matrices fasta n rest ;;
      Some (ss_of out :: more)
  end.

(** Lines 210-255.  [schedule] lists, thread by thread, the ranges
    [parallel_for] handed to the thread, in the order in which the threads'
    scorers are destroyed; each destructor appends the content of its
    stream to the output.  [file] lists the pieces of the output in order,
    the header line first; a piece is a line, or the part of a line that a
    stream took before it turned bad. *)
Definition process_fasta (fs : FileSystem) (n : nat)
    (schedule : list (list (Z * Z)))
    (matrices : list ScoreMatrix)
    (fasta_file_path output_file_path : list ascii) : result Run :=
  match get_file_contents fs fasta_file_path with
  | Thrown what => Thrown what
  | Returned fasta =>
      let output_is_open := writable fs output_file_path in
      let streams := run_threads matrices fasta n schedule in
      Returned
        {| scored := schedule;
           streams := streams;
           file :=
             if output_is_open
             then Some (header_line ::
                        match streams with
                        | Some per_thread =>
                            map render (List.concat per_thread)
                        | None => []
                        end)
             else None |}
  end.

(** The ranges handed to workers in a run. *)
Definition work_of (outcome : result Run) : list (Z * Z) :=
  match outcome with
  | Thrown _ => []
  | Returned run => List.concat (scored run)
  end.

End ProcessFasta.

(** A schedule [parallel_for] can produce for a buffer of [N] bytes: the
    dispatched ranges, spread over the threads in any order. *)
Definition schedules (N : Z) (schedule : list (list (Z * Z))) : Prop :=
  exists regions, dispatched N regions /\
                  Permutation (List.concat schedule) regions.

(** ** Closed forms used to state the properties *)

(** The [len] indices from [b] on, in increasing order. *)
Definition positions (b : Z) (len : nat) : list Z :=
  map (fun i => b + Z.of_nat i) (seq 0 len).

(** The indices of the half-open range [[b, e)]. *)
Definition range (b e : Z) : list Z := positions b (Z.to_nat (e - b)).

(** The bytes of the half-open span [[b, e)]. *)
Definition span (s : list ascii) (b e : Z) : list ascii := substr s b (e - b).

(** A matrix whose reverse-complement rendering loop can leave: lines
    165-172 start at [begin + size - 1], which lies before [begin] when the
    matrix has no row. *)
Definition renderable (m : ScoreMatrix) : Prop :=
  is_reverse_complement m = true -> 1 <= msize m.

Section Closed.

Variable detail_score : list Row -> list ascii -> Z -> Z -> Z.
Variable complement : ascii -> ascii.
Variable fasta : list ascii.

(** What lines 161-178 write for the window that starts at [begin]. *)
Definition rendered (m : ScoreMatrix) (begin : Z) : list ascii :=
  if is_reverse_complement m
  then map complement (rev (substr fasta begin (msize m)))
  else substr fasta begin (msize m).

(** The visit of the window [[begin, end_)] once its rendering is known. *)
Definition window_visit (k : nat) (m : ScoreMatrix)
    (name_begin name_end sequence_begin begin end_ : Z) : Visit :=
  let scaled_score := detail_score (matrix m) fasta begin end_ in
  let pvalue := nth (Z.to_nat scaled_score) (pvalues m) PrimFloat.nan in
  {| w_matrix := k; w_begin := begin; w_end := end_; w_pvalue := pvalue;
     w_line :=
       if significant pvalue
       then Some (match_line fasta m name_begin name_end sequence_begin
                    begin end_ scaled_score pvalue (rendered m begin))
       else None |}.

(** The number of windows of width [w] that fit in [[sequence_begin,
    sequence_end)]. *)
Definition window_count (sequence_begin sequence_end w : Z) : nat :=
  Z.to_nat (sequence_end - sequence_begin - w + 1).

(** The visits of one matrix over a sequence span, first window first. *)
Definition matrix_visits (k : nat) (m : ScoreMatrix)
    (name_begin name_end sequence_begin sequence_end : Z) : list Visit :=
  map (fun b => window_visit k m name_begin name_end sequence_begin
                  b (b + msize m))
      (positions sequence_begin
         (window_count sequence_begin sequence_end (msize m))).

(** The visits of the matrices [ms], the first of which has position [k]
    in the list, over a sequence span: matrix after matrix. *)
Fixpoint all_visits (k : nat) (ms : list ScoreMatrix)
    (name_begin name_end sequence_begin sequence_end : Z) : list Visit :=
  match ms with
  | [] => []
  | m :: ms' =>
      matrix_visits k m name_begin name_end sequence_begin sequence_end
      ++ all_visits (S k) ms' name_begin name_end sequence_begin sequence_end
  end.

(** The three boundaries lines 118-122 derive from [name_begin]. *)
Definition name_end_of (name_begin : Z) : Z :=
  find_first_of fasta newline (wrap (name_begin + 1)).

Definition sequence_begin_of (name_begin : Z) : Z :=
  wrap (name_end_of name_begin + 1).

Definition sequence_end_of (name_begin : Z) : Z :=
  find_first_of fasta newline (wrap (sequence_begin_of name_begin + 1)).

(** The trace of the record whose name starts at [name_begin]. *)
Definition record_trace (ms : list ScoreMatrix) (name_begin : Z) : RecordTrace :=
  {| r_name_begin := name_begin;
     r_name_end := name_end_of name_begin;
     r_sequence_begin := sequence_begin_of name_begin;
     r_sequence_end := sequence_end_of name_begin;
     r_visits := all_visits O ms name_begin (name_end_of name_begin)
                   (sequence_begin_of name_begin)
                   (sequence_end_of name_begin) |}.

End Closed.

(** The buffer and each matrix lie in memory together: no window bound
    computed inside the buffer wraps. *)
Definition in_memory (fasta : list ascii) (ms : list ScoreMatrix) : Prop :=
  size fasta < npos /\ Forall (fun m => size fasta + msize m <= npos) ms.

(** Fuel [n] covers one pass over the buffer and over any matrix. *)
Definition enough (n : nat) (fasta : list ascii) (ms : list ScoreMatrix) : Prop :=
  size fasta + 2 <= Z.of_nat n /\ Forall (fun m => msize m <= Z.of_nat n) ms.

(** The visits of the matrix at position [k]. *)
Definition visits_of (k : nat) (vs : list Visit) : list Visit :=
  filter (fun v => Nat.eqb (w_matrix v) k) vs.

(** ** Headers and well-delimited records *)

Definition header_at (fasta : list ascii) (p : Z) : bool :=
  Ascii.eqb (at_ fasta p) gt_char.

(** The indices of [[b, e)] that hold the header marker, in increasing
    order. *)
Definition headers_in (fasta : list ascii) (b e : Z) : list Z :=
  filter (header_at fasta) (range b e).

(** Every header marker is followed by the two line breaks the scanner
    looks for: the one closing the sequence line lies after the marker. *)
Definition terminated (fasta : list ascii) : Prop :=
  forall p, 0 <= p < size fasta -> at_ fasta p = gt_char ->
  p < sequence_end_of fasta (p + 1) < npos.

(** Moreover no header marker lies between a header marker and the line
    break that closes its sequence line. *)
Definition clean (fasta : list ascii) : Prop :=
  forall p, 0 <= p < size fasta -> at_ fasta p = gt_char ->
  p < sequence_end_of fasta (p + 1) < find_first_of fasta gt_char (p + 1).

Definition terminatedb (fasta : list ascii) : bool :=
  forallb (fun p => (p <? sequence_end_of fasta (p + 1))
                    && (sequence_end_of fasta (p + 1) <? npos))
          (headers_in fasta 0 (size fasta)).

Definition cleanb (fasta : list ascii) : bool :=
  forallb (fun p => (p <? sequence_end_of fasta (p + 1))
                    && (sequence_end_of fasta (p + 1)
                        <? find_first_of fasta gt_char (p + 1)))
          (headers_in fasta 0 (size fasta)).

(** ** The order of the lines of one call *)

(** A line together with where it was written: the record (by the index
    its name starts at), the position of the matrix in the list, and the
    start of the window. *)
Record Written : Type := {
  at_record : Z;
  at_matrix : nat;
  at_window : Z;
  text : Match
}.

Definition written_of_record (r : RecordTrace) : list Written :=
  flat_map (fun v => match w_line v with
                     | Some l => [{| at_record := r_name_begin r;
                                     at_matrix := w_matrix v;
                                     at_window := w_begin v;
                                     text := l |}]
                     | None => []
                     end)
           (r_visits r).

Definition written (rs : list RecordTrace) : list Written :=
  flat_map written_of_record rs.

(** Matrix, then window. *)
Definition visit_order (v1 v2 : Visit) : Prop :=
  (w_matrix v1 < w_matrix v2)%nat \/
  (w_matrix v1 = w_matrix v2 /\ w_begin v1 < w_begin v2).

(** Record, then matrix, then window: the nesting of the loops. *)
Definition loop_order (a b : Written) : Prop :=
  at_record a < at_record b \/
  (at_record a = at_record b /\
   ((at_matrix a < at_matrix b)%nat \/
    (at_matrix a = at_matrix b /\ at_window a < at_window b))).

(** Record, then window, then matrix. *)
Definition window_major_order (a b : Written) : Prop :=
  at_record a < at_record b \/
  (at_record a = at_record b /\
   (at_window a < at_window b \/
    (at_window a = at_window b /\ (at_matrix a < at_matrix b)%nat))).

(** ** Regions and the attribution of records *)

(** [regions] are consecutive half-open ranges from [b] to [e]. *)
Fixpoint chain (b : Z) (regions : list (Z * Z)) (e : Z) : Prop :=
  match regions with
  | [] => b = e
  | (region_begin, region_end) :: rest =>
      region_begin = b /\ region_begin <= region_end /\ chain region_end rest e
  end.

(** A partitioning of [[0, N)] into regions. *)
Definition partitions (N : Z) (regions : list (Z * Z)) : Prop :=
  chain 0 regions N.


(** Every range but the last is at most [grainsize] long. *)
Definition within_grain (regions : list (Z * Z)) : Prop :=
  forall i r, nth_error regions i = Some r ->
  (S i < List.length regions)%nat -> snd r - fst r <= grainsize.

(** ** The lines of a region *)

Section RegionLines.

Variable detail_score : list Row -> list ascii -> Z -> Z -> Z.
Variable complement : ascii -> ascii.
Variable matrices : list ScoreMatrix.
Variable fasta : list ascii.

(** The lines of the record whose header marker is at [p]. *)
Definition record_lines (p : Z) : list Match :=
  lines_of_visits
    (r_visits (record_trace detail_score complement fasta matrices (p + 1))).

(** The lines of the records whose header marker lies in a region. *)
Definition region_lines (r : Z * Z) : list Match :=
  flat_map record_lines (headers_in fasta (fst r) (snd r)).

End RegionLines.

(** ** The sequential path

    [process_fasta_serial] (lines 27-51) is a loop over
    [FastaReader::next_read] that hands each record and each matrix to
    [ScoreMatrix::score] with a [FimoStylePrinter]; these three are
    declared outside fasta_scorer.cpp.  They are modelled here from
    sections 3, 4.3, 4.4 and 4.6 of the design document. *)

Definition line_start (fasta : list ascii) (p : Z) : bool :=
  (p =? 0) || Ascii.eqb (at_ fasta (p - 1)) newline.

(** The next line break at or after [pos], or the end of the buffer. *)
Definition line_end (fasta : list ascii) (pos : Z) : Z :=
  let q := find_first_of fasta newline pos in
  if q =? npos then size fasta else q.

(** Modelled from the spec: [FastaReader::next_read] is missing.  A record
    is bounded by a header line starting with the marker; its name is the
    bytes strictly between the marker and the following line break, its
    sequence the bytes after that line break up to the next one.  The
    reader yields the records in file order. *)
Definition next_reads (fasta : list ascii) : list (list ascii * list ascii) :=
  map (fun p =>
         let q := line_end fasta (p + 1) in
         (span fasta (p + 1) q, span fasta (q + 1) (line_end fasta (q + 1))))
      (filter (fun p => header_at fasta p && line_start fasta p)
         (range 0 (size fasta))).

Section Serial.

Variable detail_score : list Row -> list ascii -> Z -> Z -> Z.
Variable complement : ascii -> ascii.
Variable show_double : nat -> float -> list ascii.

(** Modelled from the spec: [FimoStylePrinter] is missing.  The fields of a
    line are those of section 4.4, positions counted from 1 within the
    record's sequence. *)
Definition serial_line (m : ScoreMatrix) (sequence_name sequence : list ascii)
    (b scaled_score : Z) (pvalue : float) : Match :=
  {| pattern_name := name m;
     sequence_name := sequence_name;
     sequence_start := b + 1;
     sequence_stop := b + msize m;
     strand := if is_reverse_complement m then "-"%char else "+"%char;
     unscaled_score :=
       (double_of scaled_score / scale m
        + double_of (msize m) * min_before_scaling m)%float;
     match_pvalue := pvalue;
     matched_sequence :=
       if is_reverse_complement m
       then map complement (rev (substr sequence b (msize m)))
       else substr sequence b (msize m);
     fate := Complete |}.

(** Modelled from the spec: [ScoreMatrix::score] is missing.  Every window
    of the matrix's width that fits in the sequence is scored, first window
    first, and a window whose p-value is below the threshold gives a
    line. *)
Definition matrix_score (m : ScoreMatrix) (sequence_name sequence : list ascii)
    : list Match :=
  flat_map
    (fun b =>
       let scaled_score := detail_score (matrix m) sequence b (b + msize m) in
       let pvalue := nth (Z.to_nat scaled_score) (pvalues m) PrimFloat.nan in
       if significant pvalue
       then [serial_line m sequence_name sequence b scaled_score pvalue]
       else [])
    (range 0 (size sequence - msize m + 1)).

(** Lines 27-51: the records in file order, and for each record the
    matrices in list order.  The result is the text of the match lines in
    the output file, [None] when the output stream could not be opened. *)
Definition process_fasta_serial (fs : FileSystem)
    (matrices : list ScoreMatrix)
    (fasta_file_path output_file_path : list ascii)
    : result (option (list (list ascii))) :=
  match contents fs fasta_file_path with
  | inl _ => Thrown (bytes "failed to open " ++ fasta_file_path)
  | inr fasta =>
      let lines :=
        map (render show_double)
          (flat_map
             (fun record =>
                flat_map (fun m => matrix_score m (fst record) (snd record))
                  matrices)
             (next_reads fasta)) in
      Returned (if writable fs output_file_path then Some lines else None)
  end.

End Serial.

(** The scaled score of a window depends on the bytes of the window only. *)
Definition window_local
    (detail_score : list Row -> list ascii -> Z -> Z -> Z) : Prop :=
  forall rows s1 b1 s2 b2 len,
  substr s1 b1 len = substr s2 b2 len ->
  detail_score rows s1 b1 (b1 + len) = detail_score rows s2 b2 (b2 + len).

(** A buffer of well-formed one-line records: every header marker starts a
    line, is followed by a non-empty name and its line break, then by a
    non-empty sequence line and its line break, and no other header marker
    lies before that second line break. *)
Definition well_formed (fasta : list ascii) : Prop :=
  forall p, 0 <= p < size fasta -> at_ fasta p = gt_char ->
  line_start fasta p = true /\
  at_ fasta (p + 1) <> newline /\
  find_first_of fasta newline (p + 1) <> npos /\
  at_ fasta (find_first_of fasta newline (p + 1) + 1) <> newline /\
  find_first_of fasta newline (find_first_of fasta newline (p + 1) + 1)
  < find_first_of fasta gt_char (p + 1).

Definition well_formedb (fasta : list ascii) : bool :=
  forallb
    (fun p =>
       let q := find_first_of fasta newline (p + 1) in
       line_start fasta p
       && negb (Ascii.eqb (at_ fasta (p + 1)) newline)
       && negb (q =? npos)
       && negb (Ascii.eqb (at_ fasta (q + 1)) newline)
       && (find_first_of fasta newline (q + 1)
           <? find_first_of fasta gt_char (p + 1)))
    (headers_in fasta 0 (size fasta)).

(** ** Instances of the parameters, and sample inputs *)

(** Modelled from the spec: [complement] is declared outside
    fasta_scorer.cpp.  The design document fixes A<->T and C<->G and leaves
    every other byte open; this instance returns such a byte unchanged. *)
Definition complement_spec (c : ascii) : ascii :=
  if Ascii.eqb c "A" then "T"%char
  else if Ascii.eqb c "T" then "A"%char
  else if Ascii.eqb c "C" then "G"%char
  else if Ascii.eqb c "G" then "C"%char
  else c.

(** What the design document requires of a complement function. *)
Definition complements_bases (complement : ascii -> ascii) : Prop :=
  complement "A"%char = "T"%char /\ complement "T"%char = "A"%char /\
  complement "C"%char = "G"%char /\ complement "G"%char = "C"%char.

(** A scoring function for the samples: the sum over the window of the row
    entry of each base (columns A, C, G, T), and 0 at any other byte. *)
Definition base_index (c : ascii) : option nat :=
  if Ascii.eqb c "A" then Some 0%nat
  else if Ascii.eqb c "C" then Some 1%nat
  else if Ascii.eqb c "G" then Some 2%nat
  else if Ascii.eqb c "T" then Some 3%nat
  else None.

Fixpoint sum_rows (rows : list Row) (window : list ascii) : option Z :=
  match rows, window with
  | row :: rows', c :: window' =>
      match base_index c, sum_rows rows' window' with
      | Some j, Some rest => Some (nth j row 0 + rest)
      | _, _ => None
      end
  | _, _ => Some 0
  end.

Definition sample_score (rows : list Row) (s : list ascii) (b e : Z) : Z :=
  match sum_rows rows (substr s b (e - b)) with
  | Some z => z
  | None => 0
  end.

(** A width-4 matrix for ACGT: a full match scores 4, with p-value 0.0001. *)
Definition acgt_rows : list Row :=
  [[1; 0; 0; 0]; [0; 1; 0; 0]; [0; 0; 1; 0]; [0; 0; 0; 1]].

Definition acgt_pvalues : list float :=
  [1; 0.5; 0.1; 0.01; 0.0001]%float.

Definition acgt_forward : ScoreMatrix :=
  {| name := bytes "acgt"; matrix := acgt_rows; pvalues := acgt_pvalues;
     scale := 1; min_before_scaling := 0; is_reverse_complement := false |}.

(** A width-2 matrix for GT, and the reverse-complement matrix that reports
    the windows holding CCTT as AAGG. *)
Definition gt_forward : ScoreMatrix :=
  {| name := bytes "gt"; matrix := [[0; 0; 1; 0]; [0; 0; 0; 1]];
     pvalues := [1; 0.5; 0.0001]%float;
     scale := 1; min_before_scaling := 0; is_reverse_complement := false |}.

Definition aagg_reverse : ScoreMatrix :=
  {| name := bytes "cctt";
     matrix := [[1; 0; 0; 0]; [1; 0; 0; 0]; [0; 0; 1; 0]; [0; 0; 1; 0]];
     pvalues := acgt_pvalues;
     scale := 1; min_before_scaling := 0; is_reverse_complement := true |}.

(** The file of the end-to-end scenario. *)
Definition seq1_fasta : list ascii := line ">seq1" ++ line "ACGTACGT".

Definition aagg_fasta : list ascii := line ">r" ++ line "TAAGGT".

(** A file whose last record has no line break after its sequence. *)
Definition unterminated_fasta : list ascii := line ">a" ++ bytes "ACGT".

(** A file whose first record has an empty sequence line, and a file whose
    first record has an empty name. *)
Definition blank_fasta : list ascii :=
  line ">a" ++ line "" ++ line ">b" ++ line "ACGT".

Definition nameless_fasta : list ascii :=
  line ">" ++ line "AC" ++ line "GT".

(** A second matrix for ACGT, to tell matrix order from window order. *)
Definition acgt_again : ScoreMatrix :=
  {| name := bytes "acgt2"; matrix := acgt_rows; pvalues := acgt_pvalues;
     scale := 1; min_before_scaling := 0; is_reverse_complement := false |}.


(** Number formatting for the samples: doubles are not rendered. *)
Definition sample_show_double (precision : nat) (x : float) : list ascii :=
  bytes "?".

(** A file system in which the input can be read and no output can be
    opened, and one in which no input can be opened (errno 2, no such
    file). *)
Definition unwritable_fs : FileSystem :=
  {| contents := fun _ => inr seq1_fasta; writable := fun _ => false |}.

Definition unreadable_fs : FileSystem :=
  {| contents := fun _ => inl 2; writable := fun _ => true |}.

(** A file with a header marker in the middle of a line. *)
Definition stray_fasta : list ascii :=
  line ">a" ++ line "ACGT" ++ line "AC>x" ++ line "ACGT".

Definition stray_fs : FileSystem :=
  {| contents := fun _ => inr stray_fasta; writable := fun _ => true |}.

Definition seq1_fs : FileSystem :=
  {| contents := fun _ => inr seq1_fasta; writable := fun _ => true |}.

(** A file without any header marker. *)
Definition headerless_fasta : list ascii := line "ACGT" ++ line "ACGT".

Definition headerless_fs : FileSystem :=
  {| contents := fun _ => inr headerless_fasta; writable := fun _ => true |}.

(** A file of two records. *)
Definition pair_fasta : list ascii :=
  line ">s1" ++ line "ACGT" ++ line ">s2" ++ line "TTACGT".

Definition pair_fs : FileSystem :=
  {| contents := fun _ => inr pair_fasta; writable := fun _ => true |}.

(** A reverse-complement matrix without rows, whose only score is
    significant. *)
Definition empty_reverse : ScoreMatrix :=
  {| name := bytes "none"; matrix := []; pvalues := [0.0001%float];
     scale := 1; min_before_scaling := 0; is_reverse_complement := true |}.

(** A file whose record has an empty sequence line before a line of
    bases. *)
Definition empty_sequence_fasta : list ascii :=
  line ">a" ++ line "" ++ line "ACGT".

(** A file whose only header comes last and has no line break after its
    name's first byte. *)
Definition refused_fasta : list ascii := line "ACGT>".

Definition refused_fs : FileSystem :=
  {| contents := fun _ => inr refused_fasta; writable := fun _ => true |}.

(** ** Facts on [size_t] and on [find_first_of] *)

Lemma modulus_val : modulus = 18446744073709551616.
Proof. reflexivity. Qed.

Lemma npos_val : npos = 18446744073709551615.
Proof. reflexivity. Qed.

Lemma wrap_small (z : Z) : 0 <= z < modulus -> wrap z = z.
Proof. intros H. unfold wrap. now apply Z.mod_small. Qed.

Lemma wrap_range (z : Z) : 0 <= wrap z <= npos.
Proof.
  unfold wrap, npos. pose proof (Z.mod_pos_bound z modulus).
  rewrite modulus_val in *. lia.
Qed.

Lemma wrap_npos_succ : wrap (npos + 1) = 0.
Proof. reflexivity. Qed.

(** A count below [2^63] is a non-negative [streamsize]: the write is not
    refused. *)
Lemma write_taken (count : Z) : 0 <= count < 2 ^ 63 -> write_refused count = false.
Proof.
  intros H. unfold write_refused, to_streamsize.
  destruct (Z.ltb_spec count (2 ^ 63)) as [_ | Hge]; [| lia].
  apply Z.ltb_ge. lia.
Qed.

(** A larger one is negative: the write is refused. *)
Lemma write_not_taken (count : Z) :
  2 ^ 63 <= count < modulus -> write_refused count = true.
Proof.
  intros H. unfold write_refused, to_streamsize.
  destruct (Z.ltb_spec count (2 ^ 63)) as [Hlt | _]; [lia |].
  apply Z.ltb_lt. lia.
Qed.

Lemma size_nonneg (s : list ascii) : 0 <= size s.
Proof. unfold size. lia. Qed.

Lemma msize_nonneg (m : ScoreMatrix) : 0 <= msize m.
Proof. unfold msize. lia. Qed.

Lemma find_in_spec (s : list ascii) (c : ascii) : forall i : Z,
  (find_in s c i = npos /\
   forall k, (k < List.length s)%nat -> nth k s Ascii.zero <> c) \/
  (exists k, find_in s c i = i + Z.of_nat k /\ (k < List.length s)%nat /\
             nth k s Ascii.zero = c /\
             forall j, (j < k)%nat -> nth j s Ascii.zero <> c).
Proof.
  induction s as [|a s IH]; intros i; simpl.
  - left. split; [reflexivity | intros k Hk; lia].
  - destruct (Ascii.eqb_spec a c) as [Heq | Hne].
    + right. exists 0%nat. split; [lia |]. split; [lia |]. split; [exact Heq |].
      intros j Hj. lia.
    + destruct (IH (i + 1)) as [[H1 H2] | (k & H1 & H2 & H3 & H4)].
      * left. split; [exact H1 |]. intros [|k] Hk; [exact Hne |].
        apply H2. lia.
      * right. exists (S k). split; [lia |]. split; [lia |].
        split; [exact H3 |].
        intros [|j] Hj; [exact Hne |]. apply H4. lia.
Qed.

(** The two outcomes of a search, for a string that the machine can hold. *)
Lemma find_first_of_spec (s : list ascii) (c : ascii) (pos : Z) :
  0 <= pos -> size s <= npos ->
  (find_first_of s c pos = npos /\
   forall j, pos <= j < size s -> at_ s j <> c) \/
  (pos <= find_first_of s c pos < size s /\
   at_ s (find_first_of s c pos) = c /\
   forall j, pos <= j < find_first_of s c pos -> at_ s j <> c).
Proof.
  intros Hpos Hsz. unfold find_first_of.
  destruct (Z.ltb_spec pos (size s)) as [Hlt | Hge].
  2: { left. split; [reflexivity | intros j Hj; lia]. }
  assert (Hlen : List.length (skipn (Z.to_nat pos) s)
                 = (List.length s - Z.to_nat pos)%nat) by apply length_skipn.
  unfold size in *.
  destruct (find_in_spec (skipn (Z.to_nat pos) s) c pos)
    as [[H1 H2] | (k & H1 & H2 & H3 & H4)].
  - left. split; [exact H1 |]. intros j Hj. unfold at_.
    replace (Z.to_nat j) with (Z.to_nat pos + Z.to_nat (j - pos))%nat by lia.
    rewrite <- nth_skipn. apply H2. lia.
  - right. rewrite H1. rewrite Hlen in H2. split; [lia |]. split.
    + unfold at_.
      replace (Z.to_nat (pos + Z.of_nat k)) with (Z.to_nat pos + k)%nat by lia.
      rewrite <- nth_skipn. exact H3.
    + intros j Hj. unfold at_.
      replace (Z.to_nat j) with (Z.to_nat pos + Z.to_nat (j - pos))%nat by lia.
      rewrite <- nth_skipn. apply H4. lia.
Qed.

(** A search that succeeds returns an index below [size]. *)
Lemma find_first_of_found (s : list ascii) (c : ascii) (pos : Z) :
  0 <= pos -> size s <= npos ->
  find_first_of s c pos <> npos ->
  pos <= find_first_of s c pos < size s /\
  at_ s (find_first_of s c pos) = c /\
  forall j, pos <= j < find_first_of s c pos -> at_ s j <> c.
Proof.
  intros Hp Hs Hne.
  destruct (find_first_of_spec s c pos Hp Hs) as [[H _] | H]; [contradiction|].
  exact H.
Qed.

(** ** Index ranges and spans *)

Lemma positions_length (b : Z) (len : nat) : List.length (positions b len) = len.
Proof. unfold positions. now rewrite length_map, length_seq. Qed.

Lemma positions_S (b : Z) (len : nat) :
  positions b (S len) = positions b len ++ [b + Z.of_nat len].
Proof. unfold positions. rewrite seq_S, map_app. reflexivity. Qed.

Lemma positions_cons (b : Z) (len : nat) :
  positions b (S len) = b :: positions (b + 1) len.
Proof.
  unfold positions. simpl. f_equal; [lia |].
  rewrite <- seq_shift, map_map. apply map_ext. intros i. lia.
Qed.

Lemma positions_app (b : Z) (l1 l2 : nat) :
  positions b (l1 + l2) = positions b l1 ++ positions (b + Z.of_nat l1) l2.
Proof.
  revert b. induction l1 as [|l1 IH]; intros b.
  - simpl. now rewrite Z.add_0_r.
  - change (S l1 + l2)%nat with (S (l1 + l2)).
    rewrite !positions_cons, IH. simpl. do 3 f_equal. lia.
Qed.

Lemma in_positions (b : Z) (len : nat) (x : Z) :
  In x (positions b len) <-> b <= x < b + Z.of_nat len.
Proof.
  unfold positions. rewrite in_map_iff. split.
  - intros (i & <- & Hi). apply in_seq in Hi. lia.
  - intros H. exists (Z.to_nat (x - b)). split; [lia |]. apply in_seq. lia.
Qed.

Lemma in_range_iff (b e x : Z) : In x (range b e) <-> b <= x < e.
Proof. unfold range. rewrite in_positions. lia. Qed.

Lemma range_empty (b e : Z) : e <= b -> range b e = [].
Proof.
  intros H. unfold range. replace (Z.to_nat (e - b)) with 0%nat by lia.
  reflexivity.
Qed.

Lemma range_split (b m e : Z) :
  b <= m <= e -> range b e = range b m ++ range m e.
Proof.
  intros H. unfold range.
  replace (Z.to_nat (e - b)) with (Z.to_nat (m - b) + Z.to_nat (e - m))%nat
    by lia.
  rewrite positions_app. do 2 f_equal. lia.
Qed.

Lemma range_cons (b e : Z) : b < e -> range b e = b :: range (b + 1) e.
Proof.
  intros H. unfold range.
  replace (Z.to_nat (e - b)) with (S (Z.to_nat (e - (b + 1)))) by lia.
  apply positions_cons.
Qed.

(** Inside the string, [substr] reads the bytes one index at a time. *)
Lemma substr_positions (s : list ascii) (b : Z) (len : nat) :
  0 <= b -> b + Z.of_nat len <= size s ->
  substr s b (Z.of_nat len) = map (at_ s) (positions b len).
Proof.
  intros Hb Hlen. unfold substr, size in *. rewrite Nat2Z.id.
  apply nth_ext with (d := Ascii.zero) (d' := at_ s 0).
  - rewrite length_firstn, length_skipn, length_map, positions_length. lia.
  - intros i Hi.
    rewrite length_firstn, length_skipn in Hi.
    rewrite nth_firstn.
    destruct (Nat.ltb_spec i len) as [Hlt | Hge]; [| lia].
    rewrite nth_skipn.
    rewrite (nth_indep (map (at_ s) (positions b len)) (at_ s 0)
               (at_ s (b + Z.of_nat i))).
    2: { rewrite length_map, positions_length. exact Hlt. }
    unfold positions. rewrite map_map.
    rewrite (map_nth (fun i0 => at_ s (b + Z.of_nat i0)) (seq 0 len) i i).
    rewrite seq_nth by exact Hlt. unfold at_. f_equal. lia.
Qed.

Lemma substr_length (s : list ascii) (b len : Z) :
  0 <= b -> 0 <= len -> b + len <= size s ->
  Z.of_nat (List.length (substr s b len)) = len.
Proof.
  intros Hb Hl Hs. unfold substr, size in *.
  rewrite length_firstn, length_skipn. lia.
Qed.

(** ** The rendering loop and the body of the window loop *)

Section WindowFacts.

Variable detail_score : list Row -> list ascii -> Z -> Z -> Z.
Variable complement : ascii -> ascii.
Variable fasta : list ascii.

(** Started [d] bytes after [begin], the loop of lines 165-172 writes the
    complements of the bytes at [begin + d], ..., [begin] and leaves. *)
Lemma rc_loop_spec (d : nat) : forall (n : nat) (begin : Z),
  0 <= begin -> begin + Z.of_nat d < modulus -> (d < n)%nat ->
  rc_loop complement fasta n (begin + Z.of_nat d) begin
  = Some (map complement (rev (map (at_ fasta) (positions begin (S d))))).
Proof.
  induction d as [|d IH]; intros n begin Hb Hd Hn.
  - destruct n as [|n]; [lia |]. simpl.
    replace (begin + 0) with begin by lia. now rewrite Z.eqb_refl.
  - destruct n as [|n]; [lia |].
    cbn [rc_loop].
    destruct (Z.eqb_spec (begin + Z.of_nat (S d)) begin) as [He | _]; [lia |].
    replace (wrap (begin + Z.of_nat (S d) - 1)) with (begin + Z.of_nat d).
    2: { rewrite wrap_small by lia. lia. }
    rewrite IH by lia. cbn [bind].
    rewrite (positions_S begin (S d)), map_app, rev_app_distr.
    reflexivity.
Qed.

(** The text written for a window that lies in the buffer. *)
Lemma render_spec (n : nat) (m : ScoreMatrix) (begin : Z) :
  renderable m -> 0 <= begin -> begin + msize m <= size fasta ->
  size fasta <= npos -> msize m <= Z.of_nat n ->
  (if is_reverse_complement m
   then rc_loop complement fasta n (wrap (wrap (begin + msize m) - 1)) begin
   else Some (substr fasta begin (msize m)))
  = Some (rendered complement fasta m begin).
Proof.
  intros Hr Hb He Hs Hn. unfold rendered.
  destruct (is_reverse_complement m) eqn:Hrc; [| reflexivity].
  specialize (Hr Hrc). pose proof (msize_nonneg m) as Hm0.
  pose proof npos_val as Hnp. pose proof modulus_val as Hm.
  rewrite (wrap_small (begin + msize m)) by lia.
  rewrite wrap_small by lia.
  replace (begin + msize m - 1)
    with (begin + Z.of_nat (Z.to_nat (msize m) - 1)) by lia.
  rewrite rc_loop_spec by lia.
  replace (S (Z.to_nat (msize m) - 1)) with (Z.to_nat (msize m)) by lia.
  rewrite <- substr_positions by lia.
  now rewrite Z2Nat.id by lia.
Qed.

(** On a window inside the buffer the loop body returns, and its visit is
    the closed form. *)
Lemma score_window_spec (n k : nat) (m : ScoreMatrix)
    (name_begin name_end sequence_begin begin end_ : Z) :
  renderable m -> 0 <= begin -> begin + msize m <= size fasta ->
  size fasta <= npos -> msize m <= Z.of_nat n ->
  score_window detail_score complement fasta n k m name_begin name_end
    sequence_begin begin end_
  = Some (window_visit detail_score complement fasta k m name_begin name_end
            sequence_begin begin end_).
Proof.
  intros Hr Hb He Hs Hn. unfold score_window, window_visit.
  destruct (significant _); [| reflexivity].
  rewrite render_spec by assumption. reflexivity.
Qed.

End WindowFacts.

(** ** The window loop and the matrix loop *)

Section LoopFacts.

Variable detail_score : list Row -> list ascii -> Z -> Z -> Z.
Variable complement : ascii -> ascii.
Variable fasta : list ascii.

Local Abbreviation window_loop' := (window_loop detail_score complement fasta).
Local Abbreviation window_visit' := (window_visit detail_score complement fasta).
Local Abbreviation matrix_visits' := (matrix_visits detail_score complement fasta).
Local Abbreviation all_visits' := (all_visits detail_score complement fasta).

(** With [cnt] windows left before [sequence_end], the loop visits exactly
    those and leaves. *)
Lemma window_loop_run (n k : nat) (m : ScoreMatrix)
    (name_begin name_end sequence_begin sequence_end : Z) (cnt : nat) :
  forall (fuel : nat) (begin : Z),
  renderable m -> msize m <= Z.of_nat n ->
  sequence_end < size fasta -> size fasta < npos ->
  0 <= begin ->
  begin + msize m + Z.of_nat cnt = sequence_end + 1 ->
  (cnt < fuel)%nat ->
  window_loop' n fuel k m name_begin name_end sequence_begin sequence_end
    begin (begin + msize m)
  = Some (map (fun b => window_visit' k m name_begin name_end sequence_begin
                          b (b + msize m))
              (positions begin cnt)).
Proof.
  pose proof npos_val as Hnp. pose proof modulus_val as Hmod.
  pose proof (msize_nonneg m) as Hm0.
  induction cnt as [|cnt IH]; intros fuel begin Hr Hn Hse Hsz Hb Hcnt Hfuel;
    (destruct fuel as [|fuel]; [lia |]); cbn [window_loop].
  - destruct (Z.leb_spec (begin + msize m) sequence_end); [lia | reflexivity].
  - destruct (Z.leb_spec (begin + msize m) sequence_end); [| lia].
    rewrite score_window_spec by (try assumption; lia). cbn [bind].
    rewrite (wrap_small (begin + 1)) by lia.
    rewrite (wrap_small (begin + msize m + 1)) by lia.
    replace (begin + msize m + 1) with (begin + 1 + msize m) by lia.
    rewrite IH by (try assumption; lia). cbn [bind].
    rewrite positions_cons. reflexivity.
Qed.

(** Lines 126-128 for one matrix, from the first window on. *)
Lemma window_loop_spec (n k : nat) (m : ScoreMatrix)
    (name_begin name_end sequence_begin sequence_end : Z) :
  renderable m -> msize m <= Z.of_nat n -> size fasta + 2 <= Z.of_nat n ->
  size fasta + msize m <= npos -> size fasta < npos ->
  0 <= sequence_begin <= size fasta -> sequence_end < size fasta ->
  window_loop' n n k m name_begin name_end sequence_begin sequence_end
    sequence_begin (wrap (sequence_begin + msize m))
  = Some (matrix_visits' k m name_begin name_end sequence_begin sequence_end).
Proof.
  intros Hr Hn Hn2 Hfit Hsz Hsb Hse.
  pose proof npos_val as Hnp. pose proof modulus_val as Hmod.
  pose proof (msize_nonneg m) as Hm0.
  rewrite wrap_small by lia. unfold matrix_visits, window_count.
  destruct (Z_le_gt_dec (sequence_begin + msize m) (sequence_end + 1))
    as [Hle | Hgt].
  - apply window_loop_run; try assumption; lia.
  - replace (Z.to_nat (sequence_end - sequence_begin - msize m + 1))
      with 0%nat by lia.
    destruct n as [|n]; [lia |]. cbn [window_loop].
    destruct (Z.leb_spec (sequence_begin + msize m) sequence_end); [lia |].
    reflexivity.
Qed.

Lemma matrices_loop_spec (n : nat) (ms : list ScoreMatrix)
    (name_begin name_end sequence_begin sequence_end : Z) : forall k : nat,
  Forall renderable ms -> enough n fasta ms -> in_memory fasta ms ->
  0 <= sequence_begin <= size fasta -> sequence_end < size fasta ->
  matrices_loop detail_score complement fasta n k ms name_begin name_end
    sequence_begin sequence_end
  = Some (all_visits' k ms name_begin name_end sequence_begin sequence_end).
Proof.
  induction ms as [|m ms IH]; intros k Hr [Hn Hns] [Hsz Hfit] Hsb Hse;
    cbn [matrices_loop all_visits].
  { reflexivity. }
  inversion Hr; subst. inversion Hns; subst. inversion Hfit; subst.
  rewrite window_loop_spec by assumption. cbn [bind].
  rewrite IH by (try assumption; split; assumption). reflexivity.
Qed.

(** The visits of matrix [j] among those of the whole list. *)
Lemma visits_of_matrix_visits (j k : nat) (m : ScoreMatrix)
    (name_begin name_end sequence_begin sequence_end : Z) :
  visits_of j (matrix_visits' k m name_begin name_end sequence_begin
                 sequence_end)
  = if Nat.eqb k j
    then matrix_visits' k m name_begin name_end sequence_begin sequence_end
    else [].
Proof.
  unfold visits_of, matrix_visits.
  induction (positions sequence_begin
               (window_count sequence_begin sequence_end (msize m)))
    as [|b bs IH]; cbn [map filter window_visit w_matrix].
  - now destruct (Nat.eqb k j).
  - rewrite IH. now destruct (Nat.eqb k j).
Qed.

Lemma visits_of_all_visits (ms : list ScoreMatrix)
    (name_begin name_end sequence_begin sequence_end : Z) :
  forall (k j : nat) (m : ScoreMatrix),
  nth_error ms j = Some m ->
  visits_of (k + j) (all_visits' k ms name_begin name_end sequence_begin
                       sequence_end)
  = matrix_visits' (k + j) m name_begin name_end sequence_begin sequence_end.
Proof.
  induction ms as [|m0 ms IH]; intros k j m Hj.
  - destruct j; discriminate.
  - cbn [all_visits]. unfold visits_of in *. rewrite filter_app.
    fold (visits_of (k + j) (matrix_visits' k m0 name_begin name_end
                               sequence_begin sequence_end)).
    rewrite visits_of_matrix_visits.
    destruct j as [|j]; cbn [nth_error] in Hj.
    + injection Hj as ->. rewrite Nat.add_0_r, Nat.eqb_refl.
      assert (Hrest : forall ms' k', (k < k')%nat ->
                filter (fun v => Nat.eqb (w_matrix v) k)
                  (all_visits' k' ms' name_begin name_end sequence_begin
                     sequence_end) = []).
      { clear. induction ms' as [|m' ms' IH']; intros k' Hk;
          cbn [all_visits]; [reflexivity |].
        rewrite filter_app, IH' by lia.
        fold (visits_of k (matrix_visits' k' m' name_begin name_end
                             sequence_begin sequence_end)).
        rewrite visits_of_matrix_visits.
        destruct (Nat.eqb_spec k' k); [lia | reflexivity]. }
      rewrite Hrest by lia. now rewrite app_nil_r.
    + destruct (Nat.eqb_spec k (k + S j)); [lia |].
      replace (k + S j)%nat with (S k + j)%nat by lia.
      now apply IH.
Qed.

End LoopFacts.

(** ** The visits of one record *)

Section VisitFacts.

Variable detail_score : list Row -> list ascii -> Z -> Z -> Z.
Variable complement : ascii -> ascii.
Variable fasta : list ascii.

(** A visit of the matrix list is a window of one of its matrices that
    fits in the sequence span. *)
Lemma in_all_visits (ms : list ScoreMatrix)
    (name_begin name_end sequence_begin sequence_end : Z) (v : Visit) :
  forall k : nat,
  In v (all_visits detail_score complement fasta k ms name_begin name_end
          sequence_begin sequence_end) ->
  exists (j : nat) (m : ScoreMatrix) (b : Z),
    nth_error ms j = Some m /\ w_matrix v = (k + j)%nat /\
    sequence_begin <= b /\ b + msize m <= sequence_end /\
    v = window_visit detail_score complement fasta (k + j) m name_begin
          name_end sequence_begin b (b + msize m).
Proof.
  induction ms as [|m0 ms IH]; intros k Hv; cbn [all_visits] in Hv.
  - contradiction.
  - apply in_app_or in Hv. destruct Hv as [Hv | Hv].
    + unfold matrix_visits, window_count in Hv. apply in_map_iff in Hv.
      destruct Hv as (b & <- & Hb). apply in_positions in Hb.
      exists 0%nat, m0, b. rewrite Nat.add_0_r.
      repeat split; try reflexivity; lia.
    + destruct (IH (S k) Hv) as (j & m & b & Hj & Hk & H1 & H2 & Hv').
      exists (S j), m, b. replace (k + S j)%nat with (S k + j)%nat by lia.
      repeat split; assumption.
Qed.

End VisitFacts.

(** ** One record *)

Section RecordFacts.

Variable detail_score : list Row -> list ascii -> Z -> Z -> Z.
Variable complement : ascii -> ascii.
Variable matrices : list ScoreMatrix.
Variable fasta : list ascii.

Lemma sequence_begin_range (name_begin : Z) :
  size fasta < npos -> 0 <= sequence_begin_of fasta name_begin <= size fasta.
Proof.
  intros Hsz. unfold sequence_begin_of, name_end_of.
  pose proof npos_val as Hnp. pose proof modulus_val as Hmod.
  pose proof (wrap_range (name_begin + 1)) as Hw.
  destruct (find_first_of_spec fasta newline (wrap (name_begin + 1)))
    as [[H _] | [H _]]; try lia.
  - rewrite H. rewrite wrap_npos_succ. pose proof (size_nonneg fasta). lia.
  - rewrite wrap_small by lia. lia.
Qed.

Lemma sequence_end_found (name_begin : Z) :
  size fasta < npos -> sequence_end_of fasta name_begin <> npos ->
  sequence_begin_of fasta name_begin < sequence_end_of fasta name_begin
  /\ sequence_end_of fasta name_begin < size fasta.
Proof.
  intros Hsz Hne. pose proof (sequence_begin_range name_begin Hsz) as Hsb.
  pose proof npos_val as Hnp. pose proof modulus_val as Hmod.
  unfold sequence_end_of in *.
  destruct (find_first_of_found fasta newline
              (wrap (sequence_begin_of fasta name_begin + 1)))
    as (H & _); try assumption; try lia.
  - apply wrap_range.
  - rewrite (wrap_small (sequence_begin_of fasta name_begin + 1)) in * by lia.
    lia.
Qed.

(** A record whose sequence line is terminated is scored to the end, and
    its trace is the closed form. *)
Lemma score_record_spec (n : nat) (name_begin : Z) :
  Forall renderable matrices -> enough n fasta matrices ->
  in_memory fasta matrices ->
  sequence_end_of fasta name_begin <> npos ->
  score_record detail_score complement matrices fasta n name_begin
  = Some (record_trace detail_score complement fasta matrices name_begin).
Proof.
  intros Hr Hn Hmem Hse. unfold score_record, record_trace.
  fold (name_end_of fasta name_begin).
  fold (sequence_begin_of fasta name_begin).
  fold (sequence_end_of fasta name_begin).
  destruct (sequence_end_found name_begin (proj1 Hmem) Hse) as [_ Hlt].
  rewrite matrices_loop_spec; try assumption.
  - reflexivity.
  - apply sequence_begin_range. exact (proj1 Hmem).
Qed.

End RecordFacts.

(** Closed arithmetic facts and list facts about the sample inputs. *)
Ltac decide_closed :=
  repeat match goal with
  | |- _ /\ _ => split
  | |- enough _ _ _ => split
  | |- in_memory _ _ => split
  | |- Forall _ [] => constructor
  | |- Forall _ (_ :: _) => constructor
  | |- renderable _ => intros ?
  end;
  try (vm_compute; first [reflexivity | discriminate
                         | intros ?; discriminate | lia]).

(** ** Window coverage *)

(** C4, at the file [>a / / ACGT], whose record [a] has an empty sequence
    line, with one matrix of width 4.  The byte after the name's line break
    is itself a line break (index 3), so the sequence has length 0, less
    than the width; but the search of line 122 starts at index 4 and ends
    the span at index 8, and the window loop scores the two windows
    [[3, 7)] and [[4, 8)] of the next line and inserts a line for the
    second. *)
Theorem empty_sequence_line_scored :
  at_ empty_sequence_fasta 2 = newline /\
  find_first_of empty_sequence_fasta newline 3 = 3 /\
  msize acgt_forward = 4 /\
  exists r,
    score sample_score complement_spec [acgt_forward] empty_sequence_fasta 20
      0 (size empty_sequence_fasta) = Some [r] /\
    r_name_end r = 2 /\ r_sequence_begin r = 3 /\ r_sequence_end r = 8 /\
    map (fun v => (w_begin v, w_end v)) (r_visits r) = [(3, 7); (4, 8)] /\
    map (fun v => option_map (fun l => (sequence_start l, sequence_stop l,
                                        matched_sequence l)) (w_line v))
      (r_visits r)
    = [None; Some (2, 5, bytes "ACGT")].
Proof.
  split; [reflexivity |]. split; [reflexivity |]. split; [reflexivity |].
  eexists. split; [vm_compute; reflexivity |]. repeat split.
Qed.

(** ** The significance threshold *)



(** ** Rendering of the matched sequence *)

(** C8.  For a window inside the buffer, the line of a reverse-complement
    matrix holds the complements of the window's bytes from the last byte
    to the first, so that with a complement function exchanging A with T
    and C with G the window AAGG is rendered as CCTT; the line of any other
    matrix holds the window's bytes in order. *)
Theorem reverse_complement_rendering
    (detail_score : list Row -> list ascii -> Z -> Z -> Z)
    (complement : ascii -> ascii) (fasta : list ascii)
    (n k : nat) (m : ScoreMatrix)
    (name_begin name_end sequence_begin begin end_ : Z) :
  complements_bases complement ->
  renderable m -> 0 <= begin -> begin + msize m <= size fasta ->
  size fasta <= npos -> msize m <= Z.of_nat n ->
  exists v,
    score_window detail_score complement fasta n k m name_begin name_end
      sequence_begin begin end_ = Some v /\
    forall l, w_line v = Some l ->
      (is_reverse_complement m = true ->
         matched_sequence l
         = map complement (rev (substr fasta begin (msize m))) /\
         (substr fasta begin (msize m) = bytes "AAGG" ->
          matched_sequence l = bytes "CCTT")) /\
      (is_reverse_complement m = false ->
         matched_sequence l = substr fasta begin (msize m)).
Proof.
  intros (HA & HT & HC & HG) Hr Hb He Hs Hn.
  eexists. split; [now apply score_window_spec |].
  cbn [window_visit w_line]. intros l Hl.
  destruct (significant _); [| discriminate].
  injection Hl as <-. cbn [match_line matched_sequence]. unfold rendered.
  split; intros Hrc; rewrite Hrc; [| reflexivity].
  split; [reflexivity |].
  intros Hw. rewrite Hw. cbn [bytes list_ascii_of_string rev app map].
  now rewrite HA, HG.
Qed.

Lemma reverse_complement_rendering_witness :
  complements_bases complement_spec /\
  renderable aagg_reverse /\ 0 <= 4 /\
  4 + msize aagg_reverse <= size aagg_fasta /\
  size aagg_fasta <= npos /\ msize aagg_reverse <= Z.of_nat 20 /\
  exists v,
    score_window sample_score complement_spec aagg_fasta 20 0 aagg_reverse
      1 2 3 4 8 = Some v /\
    forall l, w_line v = Some l ->
      (is_reverse_complement aagg_reverse = true ->
         matched_sequence l
         = map complement_spec (rev (substr aagg_fasta 4 (msize aagg_reverse)))
         /\
         (substr aagg_fasta 4 (msize aagg_reverse) = bytes "AAGG" ->
          matched_sequence l = bytes "CCTT")) /\
      (is_reverse_complement aagg_reverse = false ->
         matched_sequence l = substr aagg_fasta 4 (msize aagg_reverse)).
Proof.
  assert (H0 : complements_bases complement_spec)
    by (repeat split; reflexivity).
  assert (H1 : renderable aagg_reverse) by decide_closed.
  assert (H2 : 0 <= 4) by lia.
  assert (H3 : 4 + msize aagg_reverse <= size aagg_fasta) by decide_closed.
  assert (H4 : size aagg_fasta <= npos) by decide_closed.
  assert (H5 : msize aagg_reverse <= Z.of_nat 20) by decide_closed.
  repeat (split; [assumption |]).
  exact (reverse_complement_rendering sample_score complement_spec aagg_fasta
           20 0 aagg_reverse 1 2 3 4 8 H0 H1 H2 H3 H4 H5).
Defined.

(** The sample of C8, run: the window AAGG of [>r / TAAGGT] under the
    reverse-complement matrix is written as CCTT on the minus strand. *)
Example aagg_rendered_cctt :
  option_map (fun v => option_map (fun l => (strand l, matched_sequence l))
                         (w_line v))
    (score_window sample_score complement_spec aagg_fasta 20 0 aagg_reverse
       1 2 3 4 8)
  = Some (Some ("-"%char, bytes "CCTT")).
Proof. vm_compute. reflexivity. Qed.

(** ** The last record without a line break *)

Section Unterminated.

Variable detail_score : list Row -> list ascii -> Z -> Z -> Z.
Variable complement : ascii -> ascii.
Variable fasta : list ascii.

(** With [sequence_end = npos] the guard [end <= sequence_end] holds for
    every [size_t], and the window loop leaves within no fuel. *)
Lemma window_loop_unterminated (n k : nat) (m : ScoreMatrix)
    (name_begin name_end sequence_begin : Z) :
  forall (fuel : nat) (begin end_ : Z),
  0 <= end_ <= npos ->
  window_loop detail_score complement fasta n fuel k m name_begin name_end
    sequence_begin npos begin end_ = None.
Proof.
  induction fuel as [|fuel IH]; intros begin end_ He; cbn [window_loop].
  - reflexivity.
  - destruct (Z.leb_spec end_ npos) as [_ | Hgt]; [| lia].
    destruct (score_window _ _ _ _ _ _ _ _ _ _ _); cbn [bind];
      [| reflexivity].
    rewrite IH by apply wrap_range. reflexivity.
Qed.

Lemma score_record_unterminated (n : nat) (m : ScoreMatrix)
    (ms : list ScoreMatrix) (name_begin : Z) :
  sequence_end_of fasta name_begin = npos ->
  score_record detail_score complement (m :: ms) fasta n name_begin = None.
Proof.
  intros Hse. unfold score_record.
  fold (name_end_of fasta name_begin).
  fold (sequence_begin_of fasta name_begin).
  fold (sequence_end_of fasta name_begin).
  rewrite Hse. cbn [matrices_loop].
  rewrite window_loop_unterminated by apply wrap_range. reflexivity.
Qed.

End Unterminated.

(** C3, at the file [>a / ACGT] without a final line break and one matrix of
    width 4.  The search of line 122 fails, so [sequence_end] is [npos]; the
    guard of the window loop holds for the window [[4, 8)] although the
    buffer has 7 bytes, the loop body is run on it, and the scan of the
    region [[0, 7)] leaves within no fuel. *)
Theorem unterminated_record_overruns :
  size unterminated_fasta = 7 /\
  sequence_end_of unterminated_fasta 1 = npos /\
  (8 <=? sequence_end_of unterminated_fasta 1) = true /\
  (forall (n fuel : nat),
     window_loop sample_score complement_spec unterminated_fasta n
       (S (S fuel)) 0 acgt_forward 1 2 3 npos 3 7
     = (v <- score_window sample_score complement_spec unterminated_fasta n 0
               acgt_forward 1 2 3 3 7 ;;
        vs <- (v' <- score_window sample_score complement_spec
                       unterminated_fasta n 0 acgt_forward 1 2 3 4 8 ;;
               vs' <- window_loop sample_score complement_spec
                        unterminated_fasta n fuel 0 acgt_forward 1 2 3 npos
                        5 9 ;;
               Some (v' :: vs')) ;;
        Some (v :: vs))) /\
  (forall n : nat,
     score sample_score complement_spec [acgt_forward] unterminated_fasta n
       0 (size unterminated_fasta) = None).
Proof.
  split; [reflexivity |]. split; [reflexivity |]. split; [reflexivity |].
  split.
  - intros n fuel. reflexivity.
  - intros [|n]; [reflexivity |].
    unfold score. cbn [score_loop].
    change (find_first_of unterminated_fasta gt_char 0) with 0.
    change (0 >=? size unterminated_fasta) with false. cbv iota.
    change (wrap (0 + 1)) with 1.
    rewrite score_record_unterminated by reflexivity. reflexivity.
Qed.

(** ** The name span and the sequence span *)

(** C7, at two files.  In [>a / / >b / ACGT] the record [a] has an empty
    sequence line: the byte after the name's line break is the line break
    at index 3, but the search of line 122 starts one byte later, at
    [sequence_begin + 1 = 4], so the sequence span is [[3, 6)], the bytes
    line break, marker, b, and the record [b], whose marker lies in that
    span, is not located.  In [> / AC / GT] the header has an empty name:
    the search of line 118 starts at [name_begin + 1 = 2] and skips the line
    break at index 1, so the name span is [[1, 4)], the bytes line break,
    A, C, and the sequence span is the third line. *)
Theorem empty_line_spans :
  (find_first_of blank_fasta newline 3 = 3 /\
   exists r,
     score sample_score complement_spec [acgt_forward] blank_fasta 20
       0 (size blank_fasta) = Some [r] /\
     r_name_begin r = 1 /\ r_name_end r = 2 /\
     r_sequence_begin r = 3 /\ r_sequence_end r = 6 /\
     span blank_fasta (r_sequence_begin r) (r_sequence_end r)
     = [newline; gt_char; "b"%char] /\
     r_visits r = []) /\
  (find_first_of nameless_fasta newline 1 = 1 /\
   exists r,
     score sample_score complement_spec [gt_forward] nameless_fasta 20
       0 (size nameless_fasta) = Some [r] /\
     r_name_begin r = 1 /\ r_name_end r = 4 /\
     r_sequence_begin r = 5 /\ r_sequence_end r = 7 /\
     span nameless_fasta (r_name_begin r) (r_name_end r)
     = [newline; "A"%char; "C"%char] /\
     span nameless_fasta (r_sequence_begin r) (r_sequence_end r) = bytes "GT" /\
     map (fun v => option_map sequence_name (w_line v)) (r_visits r)
     = [Some [newline; "A"%char; "C"%char]]).
Proof.
  split.
  - split; [reflexivity |].
    eexists. split; [vm_compute; reflexivity |]. repeat split.
  - split; [reflexivity |].
    eexists. split; [vm_compute; reflexivity |]. repeat split.
Qed.

(** ** Sorted lists *)

Lemma StronglySorted_app {A : Type} (R : A -> A -> Prop) (l1 l2 : list A) :
  StronglySorted R l1 -> StronglySorted R l2 ->
  (forall a b, In a l1 -> In b l2 -> R a b) ->
  StronglySorted R (l1 ++ l2).
Proof.
  induction l1 as [|x l1 IH]; intros H1 H2 Hc; cbn [app]; [exact H2 |].
  inversion H1 as [|? ? Hs Hf]; subst. constructor.
  - apply IH; [exact Hs | exact H2 |]. intros a b Ha Hb.
    apply Hc; [now right | exact Hb].
  - apply Forall_app. split; [exact Hf |].
    apply Forall_forall. intros b Hb. apply Hc; [now left | exact Hb].
Qed.

Lemma StronglySorted_flat_map {A B : Type} (R : A -> A -> Prop)
    (R' : B -> B -> Prop) (f : A -> list B) (l : list A) :
  StronglySorted R l ->
  (forall a, In a l -> StronglySorted R' (f a)) ->
  (forall a b x y, R a b -> In x (f a) -> In y (f b) -> R' x y) ->
  StronglySorted R' (flat_map f l).
Proof.
  intros Hs. induction Hs as [|a l Hs IH Hf]; intros Hin Hc; cbn [flat_map].
  - constructor.
  - apply StronglySorted_app.
    + apply Hin. now left.
    + apply IH; [| exact Hc]. intros b Hb. apply Hin. now right.
    + intros x y Hx Hy. apply in_flat_map in Hy. destruct Hy as (b & Hb & Hy).
      rewrite Forall_forall in Hf. exact (Hc a b x y (Hf b Hb) Hx Hy).
Qed.

Lemma StronglySorted_map {A B : Type} (R : A -> A -> Prop)
    (R' : B -> B -> Prop) (f : A -> B) (l : list A) :
  StronglySorted R l -> (forall a b, R a b -> R' (f a) (f b)) ->
  StronglySorted R' (map f l).
Proof.
  intros Hs Hc. induction Hs as [|a l Hs IH Hf]; cbn [map]; constructor.
  - exact IH.
  - apply Forall_map. revert Hf. apply Forall_impl. intros b. apply Hc.
Qed.

Lemma positions_sorted (b : Z) (len : nat) :
  StronglySorted Z.lt (positions b len).
Proof.
  revert b. induction len as [|len IH]; intros b.
  - constructor.
  - rewrite positions_cons. constructor; [apply IH |].
    apply Forall_forall. intros x Hx. apply in_positions in Hx. lia.
Qed.

(** ** The order of the visits of one record *)

Section OrderFacts.

Variable detail_score : list Row -> list ascii -> Z -> Z -> Z.
Variable complement : ascii -> ascii.
Variable fasta : list ascii.

Lemma matrix_visits_sorted (k : nat) (m : ScoreMatrix)
    (name_begin name_end sequence_begin sequence_end : Z) :
  StronglySorted visit_order
    (matrix_visits detail_score complement fasta k m name_begin name_end
       sequence_begin sequence_end).
Proof.
  unfold matrix_visits.
  apply StronglySorted_map with (R := Z.lt); [apply positions_sorted |].
  intros a b Hab. right. cbn [window_visit w_matrix w_begin]. now split.
Qed.

Lemma matrix_visits_matrix (k : nat) (m : ScoreMatrix)
    (name_begin name_end sequence_begin sequence_end : Z) (v : Visit) :
  In v (matrix_visits detail_score complement fasta k m name_begin name_end
          sequence_begin sequence_end) ->
  w_matrix v = k.
Proof.
  unfold matrix_visits. intros Hv. apply in_map_iff in Hv.
  destruct Hv as (b & <- & _). reflexivity.
Qed.

Lemma all_visits_sorted (ms : list ScoreMatrix)
    (name_begin name_end sequence_begin sequence_end : Z) : forall k : nat,
  StronglySorted visit_order
    (all_visits detail_score complement fasta k ms name_begin name_end
       sequence_begin sequence_end) /\
  Forall (fun v => (k <= w_matrix v)%nat)
    (all_visits detail_score complement fasta k ms name_begin name_end
       sequence_begin sequence_end).
Proof.
  induction ms as [|m ms IH]; intros k; cbn [all_visits].
  - split; constructor.
  - destruct (IH (S k)) as [Hs Hf]. rewrite Forall_forall in Hf. split.
    + apply StronglySorted_app;
        [apply matrix_visits_sorted | exact Hs |].
      intros a b Ha Hb. left.
      apply matrix_visits_matrix in Ha. specialize (Hf b Hb). lia.
    + apply Forall_app. split; apply Forall_forall; intros v Hv.
      * apply matrix_visits_matrix in Hv. lia.
      * specialize (Hf v Hv). lia.
Qed.

(** The lines of one record follow the matrix list, and for one matrix the
    windows from first to last. *)
Lemma written_of_record_sorted (ms : list ScoreMatrix) (name_begin : Z) :
  StronglySorted loop_order
    (written_of_record
       (record_trace detail_score complement fasta ms name_begin)).
Proof.
  unfold written_of_record. cbn [record_trace r_visits r_name_begin].
  apply StronglySorted_flat_map with (R := visit_order).
  - apply all_visits_sorted.
  - intros v _. destruct (w_line v); repeat constructor.
  - intros a b x y Hab Hx Hy.
    destruct (w_line a); [| contradiction].
    destruct (w_line b); [| contradiction].
    destruct Hx as [<- | []]. destruct Hy as [<- | []].
    right. split; [reflexivity |]. exact Hab.
Qed.

Lemma written_of_record_at (r : RecordTrace) (x : Written) :
  In x (written_of_record r) -> at_record x = r_name_begin r.
Proof.
  unfold written_of_record. intros Hx. apply in_flat_map in Hx.
  destruct Hx as (v & _ & Hx). destruct (w_line v); [| contradiction].
  destruct Hx as [<- | []]. reflexivity.
Qed.

End OrderFacts.

(** ** The scan of a region *)

Section ScanFacts.

Variable detail_score : list Row -> list ascii -> Z -> Z -> Z.
Variable complement : ascii -> ascii.
Variable matrices : list ScoreMatrix.
Variable fasta : list ascii.

Local Abbreviation score_loop' :=
  (score_loop detail_score complement matrices fasta).
Local Abbreviation record_trace' :=
  (record_trace detail_score complement fasta matrices).

Hypothesis Hrender : Forall renderable matrices.
Hypothesis Hmem : in_memory fasta matrices.

Lemma at_beyond (j : Z) : size fasta <= j -> at_ fasta j = Ascii.zero.
Proof. intros H. unfold at_, size in *. apply nth_overflow. lia. Qed.

Lemma header_in_buffer (j : Z) : 0 <= j -> at_ fasta j = gt_char -> j < size fasta.
Proof.
  intros H0 Hj. destruct (Z_lt_ge_dec j (size fasta)) as [Hlt | Hge];
    [exact Hlt |].
  rewrite at_beyond in Hj by lia. discriminate.
Qed.

(** The search for the next header from [region_begin]: either it stops
    the loop, and no header lies in the rest of the region, or it finds the
    first header of the region. *)
Lemma next_header (region_begin region_end : Z) :
  0 <= region_begin -> region_end <= npos ->
  let p := find_first_of fasta gt_char region_begin in
  ((p >=? region_end) = true /\
   forall j, region_begin <= j < region_end -> at_ fasta j <> gt_char) \/
  ((p >=? region_end) = false /\ region_begin <= p < size fasta /\
   p < region_end /\ at_ fasta p = gt_char /\
   forall j, region_begin <= j < p -> at_ fasta j <> gt_char).
Proof.
  intros Hb He p. destruct Hmem as [Hsz _].
  destruct (find_first_of_spec fasta gt_char region_begin Hb)
    as [[H1 H2] | (H1 & H2 & H3)]; [lia | |]; fold p in H1, H2 |- *.
  - left. split; [apply Z.geb_le; lia |].
    intros j Hj Hc. apply (H2 j); [| exact Hc].
    split; [lia |]. apply header_in_buffer; [lia | exact Hc].
  - fold p in H3. destruct (Z.geb_spec p region_end) as [Hge | Hlt].
    + left. split; [reflexivity |]. intros j Hj. apply H3. lia.
    + right. repeat split; try lia; assumption.
Qed.

(** On a buffer whose records are terminated the scan of a region returns;
    the records it scored start after [region_begin], in increasing order,
    and each was scored against all matrices and windows. *)
Lemma score_loop_terminated (n : nat) (region_end : Z) :
  terminated fasta -> enough n fasta matrices -> region_end <= npos ->
  forall (fuel : nat) (region_begin : Z),
  0 <= region_begin -> (0 < fuel)%nat ->
  size fasta - region_begin < Z.of_nat fuel ->
  exists rs,
    score_loop' n fuel region_begin region_end = Some rs /\
    Forall (fun r => region_begin < r_name_begin r /\
                     r = record_trace' (r_name_begin r)) rs /\
    StronglySorted (fun a b => r_name_begin a < r_name_begin b) rs.
Proof.
  intros Hterm Hn He.
  pose proof npos_val as Hnp. pose proof modulus_val as Hmod.
  induction fuel as [|fuel IH]; intros region_begin Hb Hf0 Hf; [lia |].
  cbn [score_loop].
  destruct (next_header region_begin region_end Hb He)
    as [[Hstop _] | (Hgo & Hp & Hpe & Hat & _)]; rewrite ?Hstop, ?Hgo.
  - exists []. repeat split; constructor.
  - set (p := find_first_of fasta gt_char region_begin) in *.
    rewrite (wrap_small (p + 1)) by (destruct Hmem; lia).
    destruct (Hterm p) as [Hlo Hhi]; [lia | exact Hat |].
    rewrite score_record_spec by (try assumption; lia).
    cbn [bind record_trace r_sequence_end].
    assert (Hse : sequence_end_of fasta (p + 1) < size fasta).
    { apply sequence_end_found; [exact (proj1 Hmem) | lia]. }
    rewrite (wrap_small (sequence_end_of fasta (p + 1) + 1))
      by (destruct Hmem; lia).
    destruct (IH (sequence_end_of fasta (p + 1) + 1)) as (rs & Hrs & Hall & Hs);
      try lia.
    rewrite Hrs. cbn [bind]. eexists. split; [reflexivity |].
    split; [| constructor; [exact Hs |]].
    + constructor.
      * cbn [record_trace r_name_begin]. split; [lia | reflexivity].
      * revert Hall. apply Forall_impl. intros r [H1 H2]. split; [lia | exact H2].
    + revert Hall. apply Forall_impl. intros r [H1 _].
      cbn [record_trace r_name_begin]. lia.
Qed.

End ScanFacts.

Lemma headers_in_iff (fasta : list ascii) (b e p : Z) :
  In p (headers_in fasta b e) <-> b <= p < e /\ at_ fasta p = gt_char.
Proof.
  unfold headers_in, header_at. rewrite filter_In, in_range_iff.
  split; intros [H1 H2]; (split; [exact H1 |]).
  - now apply Ascii.eqb_eq.
  - now apply Ascii.eqb_eq.
Qed.

Lemma terminatedb_sound (fasta : list ascii) :
  terminatedb fasta = true -> terminated fasta.
Proof.
  unfold terminatedb, terminated. rewrite forallb_forall. intros H p Hp Hat.
  specialize (H p). rewrite headers_in_iff in H.
  specialize (H (conj Hp Hat)). apply andb_true_iff in H. lia.
Qed.

Lemma cleanb_sound (fasta : list ascii) : cleanb fasta = true -> clean fasta.
Proof.
  unfold cleanb, clean. rewrite forallb_forall. intros H p Hp Hat.
  specialize (H p). rewrite headers_in_iff in H.
  specialize (H (conj Hp Hat)). apply andb_true_iff in H. lia.
Qed.

(** ** The order of the lines within a worker *)

(** C6, as the loops are nested.  On a buffer whose records are terminated,
    each call of a worker returns, the worker's stream is the calls' output
    one after the other in the order of the calls, and the lines of one
    call are ordered by record, then by the position of the matrix in the
    list, then by window start: for one record, all lines of the first
    matrix precede those of the second. *)
Theorem emission_order
    (detail_score : list Row -> list ascii -> Z -> Z -> Z)
    (complement : ascii -> ascii)
    (matrices : list ScoreMatrix) (fasta : list ascii)
    (n : nat) (regions : list (Z * Z)) :
  Forall renderable matrices -> in_memory fasta matrices ->
  terminated fasta -> enough n fasta matrices ->
  Forall (fun r => 0 <= fst r /\ snd r <= npos) regions ->
  exists outs,
    Forall2 (fun r out =>
               score detail_score complement matrices fasta n (fst r) (snd r)
               = Some out) regions outs /\
    worker detail_score complement matrices fasta n regions
    = Some (List.concat outs) /\
    Forall (fun out => StronglySorted loop_order (written out)) outs.
Proof.
  intros Hr Hmem Hterm Hn Hregions.
  induction Hregions as [|[rb re] regions [Hb He] _ IH]; cbn [worker].
  - exists []. repeat split; constructor.
  - destruct IH as (outs & Hall & Hw & Hs). cbn [fst snd] in Hb, He.
    destruct (score_loop_terminated detail_score complement matrices fasta
                Hr Hmem n re Hterm Hn He n rb Hb) as (out & Hout & Hrec & Hsort).
    { destruct Hn. pose proof (size_nonneg fasta). lia. }
    { destruct Hn. lia. }
    exists (out :: outs). unfold score_fasta, score at 2.
    rewrite Hout, Hw. cbn [bind List.concat].
    split; [constructor; [exact Hout | exact Hall] |].
    split; [reflexivity |]. constructor; [| exact Hs].
    unfold written.
    apply StronglySorted_flat_map
      with (R := fun a b => r_name_begin a < r_name_begin b);
      [exact Hsort | |].
    + intros r Hin. rewrite Forall_forall in Hrec.
      destruct (Hrec r Hin) as [_ ->]. apply written_of_record_sorted.
    + intros a b x y Hab Hx Hy. left.
      apply written_of_record_at in Hx, Hy. lia.
Qed.

Lemma emission_order_witness :
  Forall renderable [acgt_forward; acgt_again] /\
  in_memory seq1_fasta [acgt_forward; acgt_again] /\
  terminated seq1_fasta /\
  enough 20 seq1_fasta [acgt_forward; acgt_again] /\
  Forall (fun r => 0 <= fst r /\ snd r <= npos) [(0, 15)] /\
  exists outs,
    Forall2 (fun r out =>
               score sample_score complement_spec [acgt_forward; acgt_again]
                 seq1_fasta 20 (fst r) (snd r) = Some out) [(0, 15)] outs /\
    worker sample_score complement_spec [acgt_forward; acgt_again] seq1_fasta
      20 [(0, 15)] = Some (List.concat outs) /\
    Forall (fun out => StronglySorted loop_order (written out)) outs.
Proof.
  assert (H1 : Forall renderable [acgt_forward; acgt_again]) by decide_closed.
  assert (H2 : in_memory seq1_fasta [acgt_forward; acgt_again])
    by decide_closed.
  assert (H3 : terminated seq1_fasta)
    by (apply terminatedb_sound; vm_compute; reflexivity).
  assert (H4 : enough 20 seq1_fasta [acgt_forward; acgt_again])
    by decide_closed.
  assert (H5 : Forall (fun r => 0 <= fst r /\ snd r <= npos) [(0, 15)])
    by decide_closed.
  repeat (split; [assumption |]).
  exact (emission_order sample_score complement_spec
           [acgt_forward; acgt_again] seq1_fasta 20 [(0, 15)] H1 H2 H3 H4 H5).
Defined.

(** C6 as worded fails at the file [>seq1 / ACGTACGT] with two matrices for
    ACGT.  The four lines are written for (matrix 0, window 6), (matrix 0,
    window 10), (matrix 1, window 6), (matrix 1, window 10): the second
    line has a later window than the third, so the stream is not ordered by
    window before matrix. *)
Lemma emission_order_counterexample :
  exists out,
    score sample_score complement_spec [acgt_forward; acgt_again] seq1_fasta
      20 0 (size seq1_fasta) = Some out /\
    map (fun x => (at_record x, at_matrix x, at_window x)) (written out)
    = [(1, 0%nat, 6); (1, 0%nat, 10); (1, 1%nat, 6); (1, 1%nat, 10)] /\
    ~ StronglySorted window_major_order (written out).
Proof.
  eexists. split; [vm_compute; reflexivity |]. split; [reflexivity |].
  intros H.
  match type of H with
  | StronglySorted _ ?l => let l' := eval vm_compute in l in
                           change l with l' in H
  end.
  inversion H as [|? ? H1 _]; subst.
  inversion H1 as [|? ? _ H2]; subst.
  inversion H2 as [|? ? H3 _]; subst.
  unfold window_major_order in H3. cbn in H3. lia.
Qed.

(** ** Headers of a region *)

Lemma filter_none {A : Type} (f : A -> bool) (l : list A) :
  (forall x, In x l -> f x = false) -> filter f l = [].
Proof.
  induction l as [|a l IH]; intros H; cbn [filter]; [reflexivity |].
  rewrite (H a) by now left. apply IH. intros x Hx. apply H. now right.
Qed.



Section HeaderFacts.

Variable fasta : list ascii.

Lemma headers_in_skip (b m e : Z) :
  b <= m ->
  (forall j, b <= j < m -> j < e -> at_ fasta j <> gt_char) ->
  headers_in fasta b e = headers_in fasta m e.
Proof.
  intros Hbm Hno. unfold headers_in.
  destruct (Z_le_gt_dec m e) as [Hle | Hgt].
  - rewrite (range_split b m e) by lia. rewrite filter_app.
    rewrite filter_none; [reflexivity |].
    intros x Hx. apply in_range_iff in Hx. unfold header_at.
    apply Ascii.eqb_neq. apply Hno; lia.
  - rewrite (range_empty m e) by lia. cbn [filter].
    apply filter_none. intros x Hx. apply in_range_iff in Hx.
    unfold header_at. apply Ascii.eqb_neq. apply Hno; lia.
Qed.

Lemma headers_in_cons (b e : Z) :
  b < e -> at_ fasta b = gt_char ->
  headers_in fasta b e = b :: headers_in fasta (b + 1) e.
Proof.
  intros Hlt Hat. unfold headers_in. rewrite range_cons by exact Hlt.
  cbn [filter]. unfold header_at at 1. rewrite Hat.
  now rewrite Ascii.eqb_refl.
Qed.


End HeaderFacts.

Section CleanFacts.

Variable detail_score : list Row -> list ascii -> Z -> Z -> Z.
Variable complement : ascii -> ascii.
Variable matrices : list ScoreMatrix.
Variable fasta : list ascii.

Hypothesis Hrender : Forall renderable matrices.
Hypothesis Hmem : in_memory fasta matrices.

Local Abbreviation record_trace' :=
  (record_trace detail_score complement fasta matrices).

(** On a clean buffer the scan of [[region_begin, region_end)] scores
    exactly the records whose header marker lies in the region. *)
Lemma score_loop_clean (n : nat) (region_end : Z) :
  clean fasta -> enough n fasta matrices -> region_end <= npos ->
  forall (fuel : nat) (region_begin : Z),
  0 <= region_begin -> (0 < fuel)%nat ->
  size fasta - region_begin < Z.of_nat fuel ->
  score_loop detail_score complement matrices fasta n fuel region_begin
    region_end
  = Some (map (fun p => record_trace' (p + 1))
              (headers_in fasta region_begin region_end)).
Proof.
  intros Hclean Hn He.
  pose proof npos_val as Hnp. pose proof modulus_val as Hmod.
  pose proof (proj1 Hmem) as Hsz.
  induction fuel as [|fuel IH]; intros region_begin Hb Hf0 Hf; [lia |].
  cbn [score_loop].
  destruct (next_header matrices fasta Hmem region_begin region_end Hb He)
    as [[Hstop Hno] | (Hgo & Hp & Hpe & Hat & Hno)]; rewrite ?Hstop, ?Hgo.
  - replace (headers_in fasta region_begin region_end) with (@nil Z);
      [reflexivity |].
    symmetry. unfold headers_in. apply filter_none.
    intros x Hx. apply in_range_iff in Hx. unfold header_at.
    apply Ascii.eqb_neq. now apply Hno.
  - set (p := find_first_of fasta gt_char region_begin) in *.
    rewrite (wrap_small (p + 1)) by lia.
    destruct (Hclean p) as [Hlo Hhi]; [lia | exact Hat |].
    assert (Hq : find_first_of fasta gt_char (p + 1) <= npos).
    { destruct (find_first_of_spec fasta gt_char (p + 1)) as [[H _] | [H _]];
        lia. }
    rewrite score_record_spec by (try assumption; lia).
    cbn [bind record_trace r_sequence_end].
    assert (Hse : sequence_end_of fasta (p + 1) < size fasta).
    { apply sequence_end_found; [exact Hsz | lia]. }
    rewrite (wrap_small (sequence_end_of fasta (p + 1) + 1)) by lia.
    rewrite IH by lia. cbn [bind].
    rewrite (headers_in_skip fasta region_begin p region_end)
      by (try lia; intros j Hj _; apply Hno; lia).
    rewrite (headers_in_cons fasta p region_end) by assumption.
    rewrite (headers_in_skip fasta (p + 1)
               (sequence_end_of fasta (p + 1) + 1) region_end).
    + reflexivity.
    + lia.
    + intros j Hj _.
      destruct (find_first_of_spec fasta gt_char (p + 1)) as [[_ H] | (_ & _ & H)];
        try lia; apply H; lia.
Qed.

(** Under the same conditions, [score] on a region inside the buffer. *)
Lemma score_clean (n : nat) (region_begin region_end : Z) :
  clean fasta -> enough n fasta matrices ->
  0 <= region_begin -> region_end <= size fasta ->
  score detail_score complement matrices fasta n region_begin region_end
  = Some (map (fun p => record_trace' (p + 1))
              (headers_in fasta region_begin region_end)).
Proof.
  intros Hclean Hn Hb He. unfold score.
  pose proof (proj1 Hmem) as Hsz. pose proof (size_nonneg fasta) as H0.
  destruct Hn as [Hn1 Hn2].
  apply score_loop_clean; try assumption; try lia. now split.
Qed.

End CleanFacts.

(** ** Partitions *)

Lemma chain_bounds (regions : list (Z * Z)) : forall b e : Z,
  chain b regions e ->
  b <= e /\ Forall (fun r => b <= fst r /\ fst r <= snd r /\ snd r <= e) regions.
Proof.
  induction regions as [|[rb re] rest IH]; intros b e H; cbn [chain] in H.
  - subst. split; [lia | constructor].
  - destruct H as (-> & Hle & Hrest). destruct (IH re e Hrest) as [Hre Hall].
    split; [lia |]. constructor; [cbn [fst snd]; lia |].
    revert Hall. apply Forall_impl. intros r. lia.
Qed.


(** ** Attribution of records to regions *)





(** ** Failure to open a file *)

(** C9, the input half.  When the input file cannot be opened,
    [process_fasta] ends in the exception of [get_file_contents] whatever
    the output path and the schedule are: no range reaches a worker. *)
Theorem input_open_failure_is_fatal
    (detail_score : list Row -> list ascii -> Z -> Z -> Z)
    (complement : ascii -> ascii) (show_double : nat -> float -> list ascii)
    (fs : FileSystem) (n : nat) (schedule : list (list (Z * Z)))
    (matrices : list ScoreMatrix)
    (fasta_file_path output_file_path : list ascii) (errno : Z) :
  contents fs fasta_file_path = inl errno ->
  process_fasta detail_score complement show_double fs n schedule matrices
    fasta_file_path output_file_path
  = Thrown (bytes "Failed to open file " ++ fasta_file_path
            ++ bytes ": error " ++ show_int errno) /\
  work_of (process_fasta detail_score complement show_double fs n schedule
             matrices fasta_file_path output_file_path) = [].
Proof.
  intros Hin. unfold process_fasta, get_file_contents. rewrite Hin.
  split; reflexivity.
Qed.

Lemma input_open_failure_is_fatal_witness :
  contents unreadable_fs (bytes "in.fa") = inl 2 /\
  process_fasta sample_score complement_spec sample_show_double unreadable_fs
    20 [[(0, 15)]] [acgt_forward] (bytes "in.fa") (bytes "out.txt")
  = Thrown (bytes "Failed to open file " ++ bytes "in.fa"
            ++ bytes ": error " ++ show_int 2) /\
  work_of (process_fasta sample_score complement_spec sample_show_double
             unreadable_fs 20 [[(0, 15)]] [acgt_forward] (bytes "in.fa")
             (bytes "out.txt")) = [].
Proof.
  assert (H : contents unreadable_fs (bytes "in.fa") = inl 2) by reflexivity.
  split; [exact H |].
  exact (input_open_failure_is_fatal sample_score complement_spec
           sample_show_double unreadable_fs 20 [[(0, 15)]] [acgt_forward]
           (bytes "in.fa") (bytes "out.txt") 2 H).
Defined.

(** The output stream is opened at line 230 and never tested: with a
    readable input the ranges are scored as scheduled, and when the stream
    could not be opened nothing is written. *)
Lemma unwritable_output_is_silent
    (detail_score : list Row -> list ascii -> Z -> Z -> Z)
    (complement : ascii -> ascii) (show_double : nat -> float -> list ascii)
    (fs : FileSystem) (n : nat) (schedule : list (list (Z * Z)))
    (matrices : list ScoreMatrix)
    (fasta_file_path output_file_path : list ascii) (fasta : list ascii) :
  contents fs fasta_file_path = inr fasta ->
  writable fs output_file_path = false ->
  exists run,
    process_fasta detail_score complement show_double fs n schedule matrices
      fasta_file_path output_file_path = Returned run /\
    scored run = schedule /\ file run = None.
Proof.
  intros Hin Hout. unfold process_fasta, get_file_contents.
  rewrite Hin, Hout. eexists. repeat split.
Qed.

(** C9 as worded fails for the output path: with the readable sample file
    and an output path that cannot be opened, [process_fasta] throws
    nothing and the range [[0, 15)] is scored. *)
Lemma output_open_failure_counterexample :
  writable unwritable_fs (bytes "out.txt") = false /\
  (forall what,
     process_fasta sample_score complement_spec sample_show_double
       unwritable_fs 20 [[(0, 15)]] [acgt_forward] (bytes "in.fa")
       (bytes "out.txt") <> Thrown what) /\
  work_of (process_fasta sample_score complement_spec sample_show_double
             unwritable_fs 20 [[(0, 15)]] [acgt_forward] (bytes "in.fa")
             (bytes "out.txt")) = [(0, 15)] /\
  exists run,
    process_fasta sample_score complement_spec sample_show_double
      unwritable_fs 20 [[(0, 15)]] [acgt_forward] (bytes "in.fa")
      (bytes "out.txt") = Returned run /\
    option_map (map (List.length (A := Match))) (streams run) = Some [2%nat] /\
    file run = None.
Proof.
  split; [reflexivity |]. split; [intros what; discriminate |].
  split; [reflexivity |].
  eexists. split; [reflexivity |]. split; vm_compute; reflexivity.
Qed.

(** ** The ranges dispatched by [parallel_for] *)

Lemma chain_app (l r : list (Z * Z)) : forall b m e : Z,
  chain b l m -> chain m r e -> chain b (l ++ r) e.
Proof.
  induction l as [|[rb re] l IH]; intros b m e Hl Hr; cbn [chain app] in *.
  - now subst.
  - destruct Hl as (-> & Hle & Hl). repeat split; try assumption.
    now apply IH with (m := m).
Qed.

Lemma middle_between (g : Z) (r : Z * Z) :
  0 < g -> Tbb.is_divisible g r ->
  fst r < Tbb.middle r < snd r /\
  g / 2 <= Tbb.middle r - fst r /\ g / 2 <= snd r - Tbb.middle r.
Proof.
  unfold Tbb.is_divisible, Tbb.middle. intros Hg Hd.
  assert (H1 : g / 2 <= (snd r - fst r) / 2)
    by (apply Z.div_le_mono; lia).
  pose proof (Z.div_mod (snd r - fst r) 2 ltac:(lia)) as Hdm.
  pose proof (Z.mod_pos_bound (snd r - fst r) 2 ltac:(lia)) as Hmb.
  pose proof (Z.div_mod g 2 ltac:(lia)) as Hgm.
  pose proof (Z.mod_pos_bound g 2 ltac:(lia)) as Hgb.
  lia.
Qed.

(** The leaves of a non-empty range, whatever the partitioner decides:
    consecutive, none empty, none shorter than half the grain size unless
    it is the whole range. *)
Lemma leaves_chain (g : Z) (r : Z * Z) (regions : list (Z * Z)) :
  0 < g -> Tbb.leaves g r regions -> fst r < snd r ->
  chain (fst r) regions (snd r) /\
  Forall (fun x => fst x < snd x) regions /\
  Forall (fun x => Z.min (snd r - fst r) (g / 2) <= snd x - fst x) regions.
Proof.
  intros Hg H. induction H as [[b e] | r left right Hd Hl IHl Hr IHr];
    intros Hne.
  - cbn [fst snd chain] in *. repeat split; try lia; repeat constructor;
      cbn [fst snd]; lia.
  - destruct (middle_between g r Hg Hd) as (Hm & Hlo & Hhi).
    cbn [fst snd] in IHl, IHr.
    destruct IHl as (Hc1 & Hn1 & Hs1); [lia |].
    destruct IHr as (Hc2 & Hn2 & Hs2); [lia |].
    split; [now apply chain_app with (m := Tbb.middle r) |].
    split; [apply Forall_app; now split |].
    apply Forall_app. split.
    + revert Hs1. apply Forall_impl. intros x. lia.
    + revert Hs2. apply Forall_impl. intros x. lia.
Qed.

(** Under exhaustive splitting no leaf exceeds the grain size. *)
Lemma leaves_simple_bounded (g : Z) (r : Z * Z) (regions : list (Z * Z)) :
  Tbb.leaves_simple g r regions ->
  Forall (fun x => snd x - fst x <= g) regions.
Proof.
  intros H. induction H as [r Hnd | r left right Hd Hl IHl Hr IHr].
  - constructor; [| constructor]. unfold Tbb.is_divisible in Hnd. lia.
  - apply Forall_app. now split.
Qed.

Lemma to_int_small (N : Z) : 0 <= N <= Tbb.int_max -> Tbb.to_int N = N.
Proof.
  unfold Tbb.to_int, Tbb.int_max. intros H.
  change (2 ^ 31) with 2147483648 in *. change (2 ^ 32) with 4294967296.
  rewrite Z.mod_small by lia. lia.
Qed.

(** C10, for the automatic partitioner.  For a buffer of [N] bytes, [N] at
    most [INT_MAX], the dispatched ranges are consecutive from 0 to [N],
    hence disjoint with union [[0, N)]; none is empty; each has at least
    [min N (grainsize / 2)] bytes; and when every divisible range is split
    each has at most [grainsize] bytes. *)
Theorem dispatched_ranges_partition (N : Z) (regions : list (Z * Z)) :
  0 <= N <= Tbb.int_max -> dispatched N regions ->
  partitions N regions /\
  Forall (fun r => fst r < snd r) regions /\
  Forall (fun r => Z.min N (grainsize / 2) <= snd r - fst r) regions /\
  (Tbb.leaves_simple grainsize (0, N) regions ->
   Forall (fun r => snd r - fst r <= grainsize) regions).
Proof.
  intros HN Hd. unfold dispatched, Tbb.executed in Hd.
  rewrite to_int_small in Hd by exact HN.
  split; [| split; [| split]].
  - destruct (Z.ltb_spec 0 N) as [Hpos | Hzero].
    + apply (leaves_chain grainsize (0, N)) in Hd;
        [apply Hd | unfold grainsize; lia | exact Hpos].
    + subst regions. unfold partitions. cbn [chain]. lia.
  - destruct (Z.ltb_spec 0 N) as [Hpos | Hzero]; [| subst; constructor].
    apply (leaves_chain grainsize (0, N)) in Hd;
      [apply Hd | unfold grainsize; lia | exact Hpos].
  - destruct (Z.ltb_spec 0 N) as [Hpos | Hzero]; [| subst; constructor].
    apply (leaves_chain grainsize (0, N)) in Hd;
      [| unfold grainsize; lia | exact Hpos].
    destruct Hd as (_ & _ & Hs). cbn [fst snd] in Hs.
    revert Hs. apply Forall_impl. intros r. lia.
  - apply leaves_simple_bounded.
Qed.

Lemma dispatched_ranges_partition_witness :
  0 <= 20000 <= Tbb.int_max /\
  dispatched 20000 [(0, 10000); (10000, 20000)] /\
  partitions 20000 [(0, 10000); (10000, 20000)] /\
  Forall (fun r => fst r < snd r) [(0, 10000); (10000, 20000)] /\
  Forall (fun r => Z.min 20000 (grainsize / 2) <= snd r - fst r)
    [(0, 10000); (10000, 20000)] /\
  (Tbb.leaves_simple grainsize (0, 20000) [(0, 10000); (10000, 20000)] ->
   Forall (fun r => snd r - fst r <= grainsize) [(0, 10000); (10000, 20000)]).
Proof.
  assert (H1 : 0 <= 20000 <= Tbb.int_max)
    by (split; vm_compute; discriminate).
  assert (H2 : dispatched 20000 [(0, 10000); (10000, 20000)]).
  { unfold dispatched, Tbb.executed.
    change (0 <? Tbb.to_int 20000) with true. cbv iota.
    change (Tbb.to_int 20000) with 20000.
    apply (Tbb.leaves_split grainsize (0, 20000) [(0, 10000)]
             [(10000, 20000)]).
    - unfold Tbb.is_divisible, grainsize. cbn [fst snd]. lia.
    - apply Tbb.leaves_whole.
    - apply Tbb.leaves_whole. }
  split; [exact H1 |]. split; [exact H2 |].
  exact (dispatched_ranges_partition 20000 [(0, 10000); (10000, 20000)] H1 H2).
Defined.

(** C10 as worded fails for a buffer of 20000 bytes: the partitioner may
    split the range once and hand [[0, 10000)] and [[10000, 20000)] to the
    body; the first, which is not the last, is longer than the grain size
    8400. *)
Lemma dispatched_ranges_counterexample :
  dispatched 20000 [(0, 10000); (10000, 20000)] /\
  ~ within_grain [(0, 10000); (10000, 20000)].
Proof.
  split.
  - unfold dispatched, Tbb.executed.
    change (0 <? Tbb.to_int 20000) with true. cbv iota.
    change (Tbb.to_int 20000) with 20000.
    apply (Tbb.leaves_split grainsize (0, 20000) [(0, 10000)]
             [(10000, 20000)]).
    + unfold Tbb.is_divisible, grainsize. cbn [fst snd]. lia.
    + apply Tbb.leaves_whole.
    + apply Tbb.leaves_whole.
  - intros H. specialize (H 0%nat (0, 10000) eq_refl).
    cbn [List.length fst snd] in H. unfold grainsize in H. lia.
Qed.

(** The range is a [blocked_range<int>]: a buffer of [2^31] bytes gives the
    end [-2^31], an empty range, and nothing is dispatched. *)
Example int_range_of_large_buffer :
  Tbb.to_int (2 ^ 31) = - 2 ^ 31 /\
  forall regions, dispatched (2 ^ 31) regions -> regions = [].
Proof.
  split; [reflexivity |]. intros regions H. exact H.
Qed.

(** ** Well-formed buffers *)

Lemma find_first_of_skip (s : list ascii) (c : ascii) (pos : Z) :
  0 <= pos -> size s <= npos -> at_ s pos <> c ->
  find_first_of s c pos = find_first_of s c (pos + 1).
Proof.
  intros Hpos Hsz Hne.
  destruct (find_first_of_spec s c pos Hpos Hsz) as [[H1 N1] | (R1 & A1 & N1)];
    destruct (find_first_of_spec s c (pos + 1) ltac:(lia) Hsz)
      as [[H2 N2] | (R2 & A2 & N2)].
  - congruence.
  - exfalso. apply (N1 (find_first_of s c (pos + 1))); [lia | exact A2].
  - exfalso.
    destruct (Z.eq_dec (find_first_of s c pos) pos) as [E | E];
      [rewrite E in A1; contradiction |].
    apply (N2 (find_first_of s c pos)); [lia | exact A1].
  - destruct (Z.eq_dec (find_first_of s c pos) pos) as [E | E];
      [rewrite E in A1; contradiction |].
    destruct (Z.lt_trichotomy (find_first_of s c pos)
                (find_first_of s c (pos + 1))) as [Hlt | [Heq | Hgt]].
    + exfalso. apply (N2 (find_first_of s c pos)); [lia | exact A1].
    + exact Heq.
    + exfalso. apply (N1 (find_first_of s c (pos + 1))); [lia | exact A2].
Qed.

Section WellFormed.

Variable fasta : list ascii.
Hypothesis Hwf : well_formed fasta.
Hypothesis Hsz : size fasta < npos.

(** For a well-formed record the searches of lines 118 and 122 find the
    line break after the name and the line break after the sequence. *)
Lemma well_formed_spans (p : Z) :
  0 <= p < size fasta -> at_ fasta p = gt_char ->
  let q := find_first_of fasta newline (p + 1) in
  let q' := find_first_of fasta newline (q + 1) in
  name_end_of fasta (p + 1) = q /\
  sequence_begin_of fasta (p + 1) = q + 1 /\
  sequence_end_of fasta (p + 1) = q' /\
  p + 1 < q /\ q + 1 < q' /\ q' < size fasta /\
  q' < find_first_of fasta gt_char (p + 1).
Proof.
  intros Hp Hat. cbv zeta.
  pose proof npos_val as Hnp. pose proof modulus_val as Hmod.
  destruct (Hwf p Hp Hat) as (_ & Hname & Hq & Hseq & Hq').
  set (q := find_first_of fasta newline (p + 1)) in *.
  set (q' := find_first_of fasta newline (q + 1)) in *.
  destruct (find_first_of_found fasta newline (p + 1)) as (Rq & Aq & _);
    try lia; try exact Hq. fold q in Rq, Aq.
  assert (Hgt : find_first_of fasta gt_char (p + 1) <= npos).
  { destruct (find_first_of_spec fasta gt_char (p + 1)) as [[H _] | [H _]];
      lia. }
  destruct (find_first_of_found fasta newline (q + 1)) as (Rq' & Aq' & _);
    try lia.
  fold q' in Rq', Aq'.
  assert (Hpq : p + 1 < q).
  { destruct (Z.eq_dec q (p + 1)) as [E | E]; [| lia].
    rewrite E in Aq. contradiction. }
  assert (Hqq : q + 1 < q').
  { destruct (Z.eq_dec q' (q + 1)) as [E | E]; [| lia].
    rewrite E in Aq'. contradiction. }
  assert (Hne : name_end_of fasta (p + 1) = q).
  { unfold name_end_of. rewrite wrap_small by lia. unfold q.
    symmetry. apply find_first_of_skip; try lia. exact Hname. }
  assert (Hsb : sequence_begin_of fasta (p + 1) = q + 1).
  { unfold sequence_begin_of. rewrite Hne. apply wrap_small. lia. }
  assert (Hse : sequence_end_of fasta (p + 1) = q').
  { unfold sequence_end_of. rewrite Hsb. rewrite wrap_small by lia.
    unfold q'. symmetry. apply find_first_of_skip; try lia. exact Hseq. }
  repeat split; try assumption; lia.
Qed.

Lemma well_formed_clean : clean fasta.
Proof.
  intros p Hp Hat.
  destruct (well_formed_spans p Hp Hat) as (_ & _ & Hse & H1 & H2 & _ & H3).
  rewrite Hse. lia.
Qed.

(** The reader's spans of a well-formed record are the scanner's. *)
Lemma well_formed_reader (p : Z) :
  0 <= p < size fasta -> at_ fasta p = gt_char ->
  line_end fasta (p + 1) = name_end_of fasta (p + 1) /\
  line_end fasta (line_end fasta (p + 1) + 1) = sequence_end_of fasta (p + 1).
Proof.
  intros Hp Hat.
  destruct (well_formed_spans p Hp Hat) as (Hne & _ & Hse & H1 & H2 & H3 & _).
  cbv zeta in *. rewrite Hne, Hse. unfold line_end.
  destruct (Z.eqb_spec (find_first_of fasta newline (p + 1)) npos) as [E | _];
    [lia |].
  split; [reflexivity |].
  destruct (Z.eqb_spec (find_first_of fasta newline
                          (find_first_of fasta newline (p + 1) + 1)) npos)
    as [E | _]; [lia | reflexivity].
Qed.

Lemma well_formed_headers :
  filter (fun p => header_at fasta p && line_start fasta p)
    (range 0 (size fasta))
  = headers_in fasta 0 (size fasta).
Proof.
  unfold headers_in. apply filter_ext_in. intros p Hp.
  apply in_range_iff in Hp. unfold header_at.
  destruct (Ascii.eqb_spec (at_ fasta p) gt_char) as [Hat | _];
    [| reflexivity].
  destruct (Hwf p Hp Hat) as (-> & _). reflexivity.
Qed.

End WellFormed.

Lemma well_formedb_sound (fasta : list ascii) :
  well_formedb fasta = true -> well_formed fasta.
Proof.
  unfold well_formedb, well_formed. rewrite forallb_forall. intros H p Hp Hat.
  specialize (H p). rewrite headers_in_iff in H. specialize (H (conj Hp Hat)).
  cbv zeta in H. repeat (apply andb_true_iff in H; destruct H as [H ?]).
  repeat split.
  - exact H.
  - intros E. rewrite E in *. discriminate.
  - intros E. rewrite E in *. discriminate.
  - intros E. rewrite E in *. discriminate.
  - lia.
Qed.

(** ** The lines of a record, read from the buffer or from its sequence *)

Lemma substr_substr (s : list ascii) (a L b W : Z) :
  0 <= a -> 0 <= b -> 0 <= W -> b + W <= L ->
  substr (substr s a L) b W = substr s (a + b) W.
Proof.
  intros Ha Hb HW HL. unfold substr.
  rewrite skipn_firstn_comm, firstn_firstn, skipn_skipn.
  replace (Init.Nat.min (Z.to_nat W) (Z.to_nat L - Z.to_nat b))
    with (Z.to_nat W) by lia.
  f_equal. f_equal. lia.
Qed.

Lemma positions_shift (b : Z) (len : nat) :
  positions b len = map (fun i => b + i) (positions 0 len).
Proof.
  unfold positions. rewrite map_map. apply map_ext. intros i. lia.
Qed.

Lemma flat_map_map {A B C : Type} (f : B -> list C) (g : A -> B) (l : list A) :
  flat_map f (map g l) = flat_map (fun a => f (g a)) l.
Proof.
  induction l as [|a l IH]; cbn [map flat_map]; [reflexivity |].
  now rewrite IH.
Qed.

Lemma flat_map_ext_in {A B : Type} (f g : A -> list B) (l : list A) :
  (forall a, In a l -> f a = g a) -> flat_map f l = flat_map g l.
Proof.
  induction l as [|a l IH]; intros H; cbn [flat_map]; [reflexivity |].
  rewrite (H a) by now left. rewrite IH; [reflexivity |].
  intros x Hx. apply H. now right.
Qed.

Section Lines.

Variable detail_score : list Row -> list ascii -> Z -> Z -> Z.
Variable complement : ascii -> ascii.
Variable fasta : list ascii.

Hypothesis Hlocal : window_local detail_score.
Hypothesis Hsz : size fasta < 2 ^ 63.

(** The lines of one matrix over the span [[sequence_begin, sequence_end)]
    of the buffer are those of [matrix_score] on the extracted name and
    sequence. *)
Lemma matrix_lines_serial (k : nat) (m : ScoreMatrix)
    (name_begin name_end sequence_begin sequence_end : Z) :
  0 <= name_begin <= name_end -> name_end <= size fasta ->
  0 <= sequence_begin <= sequence_end -> sequence_end <= size fasta ->
  lines_of_visits
    (matrix_visits detail_score complement fasta k m name_begin name_end
       sequence_begin sequence_end)
  = matrix_score detail_score complement m
      (span fasta name_begin name_end)
      (span fasta sequence_begin sequence_end).
Proof.
  intros Hnb Hne Hsb Hse.
  pose proof npos_val as Hnp. pose proof modulus_val as Hmod.
  pose proof (msize_nonneg m) as Hm0.
  unfold matrix_visits, matrix_score, lines_of_visits, window_count.
  assert (Hlen : size (span fasta sequence_begin sequence_end)
                 = sequence_end - sequence_begin).
  { unfold span, size. apply substr_length; unfold size in *; lia. }
  rewrite Hlen. unfold range.
  replace (Z.to_nat (sequence_end - sequence_begin - msize m + 1 - 0))
    with (Z.to_nat (sequence_end - sequence_begin - msize m + 1)) by lia.
  rewrite (positions_shift sequence_begin), map_map, flat_map_map.
  apply flat_map_ext_in. intros b Hb. apply in_positions in Hb.
  cbn [window_visit w_line].
  assert (Hwin : substr fasta (sequence_begin + b) (msize m)
                 = substr (span fasta sequence_begin sequence_end) b (msize m)).
  { unfold span. symmetry. apply substr_substr; lia. }
  rewrite (Hlocal (matrix m) fasta (sequence_begin + b)
             (span fasta sequence_begin sequence_end) b (msize m) Hwin).
  destruct (significant _); [| reflexivity].
  f_equal. unfold match_line, serial_line, rendered, span.
  rewrite (wrap_small (name_end - name_begin)) by lia.
  replace (sequence_begin + b - sequence_begin) with b by lia.
  replace (sequence_begin + b + msize m - sequence_begin)
    with (b + msize m) by lia.
  rewrite (wrap_small b) by lia.
  rewrite (wrap_small (b + 1)) by lia.
  rewrite (wrap_small (b + msize m)) by lia.
  rewrite (write_taken (name_end - name_begin)) by lia.
  rewrite (write_taken (msize m)) by lia.
  rewrite andb_false_r, Hwin. reflexivity.
Qed.

Lemma all_lines_serial (ms : list ScoreMatrix)
    (name_begin name_end sequence_begin sequence_end : Z) : forall k : nat,
  0 <= name_begin <= name_end -> name_end <= size fasta ->
  0 <= sequence_begin <= sequence_end -> sequence_end <= size fasta ->
  lines_of_visits
    (all_visits detail_score complement fasta k ms name_begin name_end
       sequence_begin sequence_end)
  = flat_map (fun m => matrix_score detail_score complement m
                         (span fasta name_begin name_end)
                         (span fasta sequence_begin sequence_end)) ms.
Proof.
  induction ms as [|m ms IH]; intros k Hnb Hne Hsb Hse;
    cbn [all_visits flat_map]; [reflexivity |].
  unfold lines_of_visits in *. rewrite flat_map_app.
  rewrite IH by assumption.
  fold (lines_of_visits
          (matrix_visits detail_score complement fasta k m name_begin name_end
             sequence_begin sequence_end)).
  now rewrite matrix_lines_serial.
Qed.

End Lines.

(** ** The streams of the threads *)

Lemma flat_map_flat_map {A B C : Type} (f : B -> list C) (g : A -> list B)
    (l : list A) :
  flat_map f (flat_map g l) = flat_map (fun a => flat_map f (g a)) l.
Proof.
  induction l as [|a l IH]; cbn [flat_map]; [reflexivity |].
  now rewrite flat_map_app, IH.
Qed.

Lemma concat_map_flat_map {A B : Type} (g : A -> list B) (ll : list (list A)) :
  List.concat (map (flat_map g) ll) = flat_map g (List.concat ll).
Proof.
  induction ll as [|l ll IH]; cbn [map List.concat]; [reflexivity |].
  now rewrite flat_map_app, IH.
Qed.

Lemma chain_headers (fasta : list ascii) (regions : list (Z * Z)) :
  forall b e : Z,
  chain b regions e ->
  flat_map (fun r => headers_in fasta (fst r) (snd r)) regions
  = headers_in fasta b e.
Proof.
  induction regions as [|[rb re] rest IH]; intros b e H; cbn [chain] in H.
  - subst. unfold headers_in. now rewrite range_empty by lia.
  - destruct H as (-> & Hle & Hrest). cbn [flat_map fst snd].
    rewrite (IH re e Hrest).
    destruct (chain_bounds rest re e Hrest) as [Hre _].
    unfold headers_in. rewrite (range_split b re e) by lia.
    now rewrite filter_app.
Qed.

Lemma dispatched_chain (N : Z) (regions : list (Z * Z)) :
  0 <= N <= Tbb.int_max -> dispatched N regions -> chain 0 regions N.
Proof.
  intros HN Hd. unfold dispatched, Tbb.executed in Hd.
  rewrite to_int_small in Hd by exact HN.
  destruct (Z.ltb_spec 0 N) as [Hpos | Hzero].
  - apply (leaves_chain grainsize (0, N)) in Hd;
      [apply Hd | unfold grainsize; lia | exact Hpos].
  - subst regions. cbn [chain]. lia.
Qed.

Section Streams.

Variable detail_score : list Row -> list ascii -> Z -> Z -> Z.
Variable complement : ascii -> ascii.
Variable matrices : list ScoreMatrix.
Variable fasta : list ascii.

Hypothesis Hrender : Forall renderable matrices.
Hypothesis Hmem : in_memory fasta matrices.
Hypothesis Hclean : clean fasta.

Local Abbreviation record_trace' :=
  (record_trace detail_score complement fasta matrices).
Local Abbreviation record_lines' :=
  (record_lines detail_score complement matrices fasta).
Local Abbreviation region_lines' :=
  (region_lines detail_score complement matrices fasta).
Local Abbreviation headers_of :=
  (flat_map (fun r : Z * Z => headers_in fasta (fst r) (snd r))).

(** The records of a thread are those of the headers of its ranges. *)
Lemma worker_clean (n : nat) (regions : list (Z * Z)) :
  enough n fasta matrices ->
  Forall (fun r => 0 <= fst r /\ snd r <= size fasta) regions ->
  worker detail_score complement matrices fasta n regions
  = Some (map (fun p => record_trace' (p + 1)) (headers_of regions)).
Proof.
  intros Hn Hall. induction Hall as [|[rb re] regions [Hb He] _ IH];
    cbn [worker flat_map map]; [reflexivity |].
  cbn [fst snd] in Hb, He. unfold score_fasta.
  rewrite (score_clean detail_score complement matrices fasta Hrender Hmem
             n rb re Hclean Hn Hb He).
  rewrite IH. cbn [bind fst snd]. now rewrite map_app.
Qed.

Lemma inserted_of_records (hs : list Z) :
  ss_of (map (fun p => record_trace' (p + 1)) hs)
  = until_bad (flat_map record_lines' hs).
Proof. unfold ss_of. now rewrite flat_map_map. Qed.

Lemma run_threads_clean (n : nat) (schedule : list (list (Z * Z))) :
  enough n fasta matrices ->
  Forall (Forall (fun r => 0 <= fst r /\ snd r <= size fasta)) schedule ->
  run_threads detail_score complement matrices fasta n schedule
  = Some (map (fun thread =>
                 until_bad (flat_map record_lines' (headers_of thread)))
              schedule).
Proof.
  intros Hn Hall. induction Hall as [|regions schedule Hr _ IH];
    cbn [run_threads map]; [reflexivity |].
  rewrite (worker_clean n regions Hn Hr), IH. cbn [bind].
  now rewrite inserted_of_records.
Qed.

(** The stream takes every line of a record whose name ends in a line
    break, in a buffer of less than [2^63] bytes. *)
Lemma record_lines_complete (p : Z) :
  size fasta < 2 ^ 63 -> 0 <= p < size fasta -> at_ fasta p = gt_char ->
  name_end_of fasta (p + 1) <> npos ->
  Forall (fun l => fate l = Complete) (record_lines' p).
Proof.
  intros Hsmall Hp Hat Hne.
  pose proof npos_val as Hnp. pose proof modulus_val as Hmod.
  pose proof (proj1 Hmem) as Hsz.
  destruct (Hclean p Hp Hat) as [Hlo Hhi].
  assert (Hq : find_first_of fasta gt_char (p + 1) <= npos).
  { destruct (find_first_of_spec fasta gt_char (p + 1)) as [[H _] | [H _]];
      lia. }
  destruct (sequence_end_found fasta (p + 1) Hsz) as [_ Hse]; [lia |].
  pose proof (sequence_begin_range fasta (p + 1) Hsz) as Hsb.
  assert (Hname : p + 2 <= name_end_of fasta (p + 1) < size fasta).
  { unfold name_end_of in *. rewrite (wrap_small (p + 1 + 1)) in * by lia.
    destruct (find_first_of_found fasta newline (p + 1 + 1)) as (H1 & _);
      try lia; assumption. }
  apply Forall_forall. intros l Hl.
  unfold record_lines, lines_of_visits in Hl.
  cbn [record_trace r_visits] in Hl.
  apply in_flat_map in Hl. destruct Hl as (v & Hv & Hl).
  destruct (in_all_visits _ _ _ _ _ _ _ _ _ _ Hv)
    as (j & m & b & _ & _ & Hb1 & Hb2 & ->).
  cbn [window_visit w_line] in Hl.
  destruct (significant _); [| contradiction].
  destruct Hl as [<- | []]. cbn [match_line fate].
  pose proof (msize_nonneg m) as Hm0.
  rewrite (wrap_small (name_end_of fasta (p + 1) - (p + 1))) by lia.
  rewrite (write_taken (name_end_of fasta (p + 1) - (p + 1))) by lia.
  rewrite (write_taken (msize m)) by lia.
  now rewrite andb_false_r.
Qed.

End Streams.

Lemma until_bad_complete (ls : list Match) :
  Forall (fun l => fate l = Complete) ls -> until_bad ls = ls.
Proof.
  intros H. induction H as [|l ls Hl _ IH]; cbn [until_bad]; [reflexivity |].
  now rewrite Hl, IH.
Qed.

Section CompleteStreams.

Variable detail_score : list Row -> list ascii -> Z -> Z -> Z.
Variable complement : ascii -> ascii.
Variable matrices : list ScoreMatrix.
Variable fasta : list ascii.

Hypothesis Hrender : Forall renderable matrices.
Hypothesis Hmem : in_memory fasta matrices.
Hypothesis Hclean : clean fasta.
Hypothesis Hsmall : size fasta < 2 ^ 63.
Hypothesis Hnamed : forall p, 0 <= p < size fasta -> at_ fasta p = gt_char ->
                    name_end_of fasta (p + 1) <> npos.

Local Abbreviation record_lines' :=
  (record_lines detail_score complement matrices fasta).
Local Abbreviation region_lines' :=
  (region_lines detail_score complement matrices fasta).

(** When every header has a name that ends in a line break no stream turns
    bad: a stream holds the lines of its records. *)
Lemma until_bad_named (b e : Z) :
  0 <= b ->
  until_bad (flat_map record_lines' (headers_in fasta b e))
  = flat_map record_lines' (headers_in fasta b e).
Proof.
  intros Hb. apply until_bad_complete.
  apply Forall_forall. intros l Hl. apply in_flat_map in Hl.
  destruct Hl as (p & Hp & Hl). apply headers_in_iff in Hp.
  destruct Hp as [Hp Hat].
  assert (Hin : 0 <= p < size fasta)
    by (split; [lia | apply header_in_buffer; [lia | exact Hat]]).
  pose proof (record_lines_complete detail_score complement matrices fasta
                Hmem Hclean p Hsmall Hin Hat (Hnamed p Hin Hat)) as Hall.
  rewrite Forall_forall in Hall. now apply Hall.
Qed.

Lemma thread_complete (thread : list (Z * Z)) :
  Forall (fun r => 0 <= fst r /\ snd r <= size fasta) thread ->
  until_bad (flat_map record_lines'
               (flat_map (fun r => headers_in fasta (fst r) (snd r)) thread))
  = flat_map region_lines' thread.
Proof.
  intros Hall. rewrite flat_map_flat_map.
  apply until_bad_complete.
  apply Forall_forall. intros l Hl. apply in_flat_map in Hl.
  destruct Hl as (r & Hr & Hl). rewrite Forall_forall in Hall.
  destruct (Hall r Hr) as [Hb _].
  unfold region_lines in Hl.
  apply in_flat_map in Hl. destruct Hl as (p & Hp & Hl).
  apply headers_in_iff in Hp. destruct Hp as [Hp Hat].
  assert (Hin : 0 <= p < size fasta)
    by (split; [lia | apply header_in_buffer; [lia | exact Hat]]).
  pose proof (record_lines_complete detail_score complement matrices fasta
                Hmem Hclean p Hsmall Hin Hat (Hnamed p Hin Hat)) as Hc.
  rewrite Forall_forall in Hc. now apply Hc.
Qed.

Lemma run_threads_complete (n : nat) (schedule : list (list (Z * Z))) :
  enough n fasta matrices ->
  Forall (Forall (fun r => 0 <= fst r /\ snd r <= size fasta)) schedule ->
  run_threads detail_score complement matrices fasta n schedule
  = Some (map (flat_map region_lines') schedule).
Proof.
  intros Hn Hall.
  rewrite (run_threads_clean detail_score complement matrices fasta Hrender
             Hmem Hclean n schedule Hn Hall).
  f_equal. apply map_ext_in. intros thread Hthread.
  apply thread_complete. rewrite Forall_forall in Hall. now apply Hall.
Qed.

End CompleteStreams.

(** ** The parallel path and the sequential path *)

(** C2, for well-formed files.  When the input is a buffer of well-formed
    one-line records of at most [INT_MAX] bytes, the scoring function looks
    at the bytes of its window only, and both files can be opened, then for
    every schedule of [parallel_for] the match lines of the parallel path
    (the output file without its header line) are a permutation of the
    lines of the sequential path. *)
Theorem serial_parallel_equivalence
    (detail_score : list Row -> list ascii -> Z -> Z -> Z)
    (complement : ascii -> ascii) (show_double : nat -> float -> list ascii)
    (fs : FileSystem) (n : nat) (schedule : list (list (Z * Z)))
    (matrices : list ScoreMatrix)
    (fasta_file_path output_file_path : list ascii) (fasta : list ascii) :
  contents fs fasta_file_path = inr fasta ->
  writable fs output_file_path = true ->
  well_formed fasta -> window_local detail_score ->
  Forall renderable matrices -> in_memory fasta matrices ->
  enough n fasta matrices -> size fasta <= Tbb.int_max ->
  schedules (size fasta) schedule ->
  exists run lines serial_lines,
    process_fasta detail_score complement show_double fs n schedule matrices
      fasta_file_path output_file_path = Returned run /\
    file run = Some (header_line :: lines) /\
    process_fasta_serial detail_score complement show_double fs matrices
      fasta_file_path output_file_path = Returned (Some serial_lines) /\
    Permutation lines serial_lines.
Proof.
  intros Hin Hout Hwf Hlocal Hr Hmem Hn HN (regions & Hd & Hperm).
  pose proof (proj1 Hmem) as Hsz. pose proof (size_nonneg fasta) as H0.
  pose proof (well_formed_clean fasta Hwf Hsz) as Hclean.
  pose proof (dispatched_chain (size fasta) regions (conj H0 HN) Hd) as Hchain.
  assert (Hbounds : Forall (Forall (fun r => 0 <= fst r /\ snd r <= size fasta))
                      schedule).
  { apply Forall_forall. intros thread Hthread.
    apply Forall_forall. intros r Hin_r.
    assert (Hin_all : In r (List.concat schedule)).
    { apply in_concat. exists thread. now split. }
    apply (Permutation_in _ Hperm) in Hin_all.
    destruct (chain_bounds regions 0 (size fasta) Hchain) as [_ Hall].
    rewrite Forall_forall in Hall. specialize (Hall r Hin_all). lia. }
  assert (Hsmall : size fasta < 2 ^ 63).
  { unfold Tbb.int_max in HN. change (2 ^ 31) with 2147483648 in HN.
    change (2 ^ 63) with 9223372036854775808. lia. }
  assert (Hnamed : forall p, 0 <= p < size fasta -> at_ fasta p = gt_char ->
                   name_end_of fasta (p + 1) <> npos).
  { intros p Hp Hat.
    destruct (well_formed_spans fasta Hwf Hsz p Hp Hat) as (Hne & _).
    cbv zeta in Hne. rewrite Hne. apply (Hwf p Hp Hat). }
  unfold process_fasta, get_file_contents, process_fasta_serial.
  rewrite Hin, Hout.
  rewrite (run_threads_complete detail_score complement matrices fasta Hr Hmem
             Hclean Hsmall Hnamed n schedule Hn Hbounds).
  eexists. eexists. eexists.
  split; [reflexivity |]. split; [reflexivity |]. split; [reflexivity |].
  apply Permutation_map. rewrite concat_map_flat_map.
  rewrite (Permutation_flat_map _ Hperm).
  unfold region_lines at 1.
  rewrite <- (flat_map_flat_map
                (record_lines detail_score complement matrices fasta)
                (fun r => headers_in fasta (fst r) (snd r))).
  rewrite (chain_headers fasta regions 0 (size fasta) Hchain).
  unfold next_reads. rewrite (well_formed_headers fasta Hwf), flat_map_map.
  cbn [fst snd].
  erewrite flat_map_ext_in; [reflexivity |].
  intros p Hp. apply headers_in_iff in Hp. destruct Hp as [Hp Hat].
  destruct (well_formed_spans fasta Hwf Hsz p Hp Hat)
    as (Hne & Hsb & Hse & H1 & H2 & H3 & _).
  destruct (well_formed_reader fasta Hwf Hsz p Hp Hat) as [Hl1 Hl2].
  cbv zeta in *.
  unfold record_lines. cbn [record_trace r_visits].
  rewrite all_lines_serial; try assumption; try lia.
  rewrite Hl2, Hl1, Hsb, Hne. reflexivity.
Qed.

Lemma sample_score_window_local : window_local sample_score.
Proof.
  intros rows s1 b1 s2 b2 len Hw. unfold sample_score.
  replace (b1 + len - b1) with len by lia.
  replace (b2 + len - b2) with len by lia.
  now rewrite Hw.
Qed.

Lemma serial_parallel_equivalence_witness :
  contents seq1_fs (bytes "in.fa") = inr seq1_fasta /\
  writable seq1_fs (bytes "out.txt") = true /\
  well_formed seq1_fasta /\ window_local sample_score /\
  Forall renderable [acgt_forward] /\ in_memory seq1_fasta [acgt_forward] /\
  enough 20 seq1_fasta [acgt_forward] /\ size seq1_fasta <= Tbb.int_max /\
  schedules (size seq1_fasta) [[(0, 15)]] /\
  exists run lines serial_lines,
    process_fasta sample_score complement_spec sample_show_double seq1_fs 20
      [[(0, 15)]] [acgt_forward] (bytes "in.fa") (bytes "out.txt")
    = Returned run /\
    file run = Some (header_line :: lines) /\
    process_fasta_serial sample_score complement_spec sample_show_double
      seq1_fs [acgt_forward] (bytes "in.fa") (bytes "out.txt")
    = Returned (Some serial_lines) /\
    Permutation lines serial_lines.
Proof.
  assert (H1 : contents seq1_fs (bytes "in.fa") = inr seq1_fasta)
    by reflexivity.
  assert (H2 : writable seq1_fs (bytes "out.txt") = true) by reflexivity.
  assert (H3 : well_formed seq1_fasta)
    by (apply well_formedb_sound; vm_compute; reflexivity).
  assert (H4 : window_local sample_score) by exact sample_score_window_local.
  assert (H5 : Forall renderable [acgt_forward]) by decide_closed.
  assert (H6 : in_memory seq1_fasta [acgt_forward]) by decide_closed.
  assert (H7 : enough 20 seq1_fasta [acgt_forward]) by decide_closed.
  assert (H8 : size seq1_fasta <= Tbb.int_max) by decide_closed.
  assert (H9 : schedules (size seq1_fasta) [[(0, 15)]]).
  { exists [(0, 15)]. split; [apply Tbb.leaves_whole | apply Permutation_refl]. }
  repeat (split; [assumption |]).
  exact (serial_parallel_equivalence sample_score complement_spec
           sample_show_double seq1_fs 20 [[(0, 15)]] [acgt_forward]
           (bytes "in.fa") (bytes "out.txt") seq1_fasta
           H1 H2 H3 H4 H5 H6 H7 H8 H9).
Defined.

(** C2 as worded fails at the file [>a / ACGT / AC>x / ACGT], 18 bytes, with
    one matrix for ACGT.  The parallel path, whose one range is [[0, 18)],
    takes the marker in the middle of the third line for a header and
    writes a second line, for a record [x]; the sequential path, which
    reads header lines, writes the line of record [a] only. *)
Lemma serial_parallel_counterexample :
  schedules (size stray_fasta) [[(0, 18)]] /\
  exists run lines serial_lines,
    process_fasta sample_score complement_spec sample_show_double stray_fs 30
      [[(0, 18)]] [acgt_forward] (bytes "in.fa") (bytes "out.txt")
    = Returned run /\
    file run = Some (header_line :: lines) /\
    process_fasta_serial sample_score complement_spec sample_show_double
      stray_fs [acgt_forward] (bytes "in.fa") (bytes "out.txt")
    = Returned (Some serial_lines) /\
    List.length lines = 2%nat /\ List.length serial_lines = 1%nat /\
    ~ Permutation lines serial_lines.
Proof.
  split.
  { exists [(0, 18)]. split; [apply Tbb.leaves_whole | apply Permutation_refl]. }
  eexists. eexists. eexists.
  split; [vm_compute; reflexivity |].
  split; [reflexivity |].
  split; [vm_compute; reflexivity |].
  split; [reflexivity |]. split; [reflexivity |].
  intros H. apply Permutation_length in H. discriminate H.
Qed.

(** ** The scenarios of the design document *)

(** The file [>seq1 / ACGTACGT] and one matrix of width 4 for ACGT: two
    lines for [seq1], at 1-4 and 5-8, on the plus strand. *)
Example end_to_end_scenario :
  option_map
    (fun run =>
       option_map
         (map (map (fun l => (sequence_name l, sequence_start l,
                              sequence_stop l, strand l, matched_sequence l))))
         (streams run))
    (match process_fasta sample_score complement_spec sample_show_double
             seq1_fs 20 [[(0, 15)]] [acgt_forward] (bytes "in.fa")
             (bytes "out.txt") with
     | Returned run => Some run
     | Thrown _ => None
     end)
  = Some (Some [[(bytes "seq1", 1, 4, "+"%char, bytes "ACGT");
                 (bytes "seq1", 5, 8, "+"%char, bytes "ACGT")]]).
Proof. vm_compute. reflexivity. Qed.

(** A buffer without a header marker gives no record, whatever the region
    and the fuel. *)
Example no_header_no_record
    (detail_score : list Row -> list ascii -> Z -> Z -> Z)
    (complement : ascii -> ascii) (matrices : list ScoreMatrix) (n : nat) :
  score detail_score complement matrices (line "ACGT") (S n) 0 5 = Some [].
Proof. reflexivity. Qed.

(** * Further properties of the scan *)

(** ** The lines of one record *)

(** X1.  The positions printed on a line are counted from 1 within the
    record's sequence span: the start is the window's offset in the span
    plus one, it is at least 1, the stop is the start plus the matrix width
    minus one, and the stop does not exceed the length of the span. *)
Theorem line_coordinates
    (detail_score : list Row -> list ascii -> Z -> Z -> Z)
    (complement : ascii -> ascii)
    (matrices : list ScoreMatrix) (fasta : list ascii)
    (n : nat) (name_begin : Z) :
  Forall renderable matrices -> enough n fasta matrices ->
  in_memory fasta matrices ->
  sequence_end_of fasta name_begin <> npos ->
  exists r,
    score_record detail_score complement matrices fasta n name_begin = Some r /\
    forall v l, In v (r_visits r) -> w_line v = Some l ->
    exists m,
      nth_error matrices (w_matrix v) = Some m /\
      sequence_start l = w_begin v - r_sequence_begin r + 1 /\
      sequence_stop l = w_end v - r_sequence_begin r /\
      1 <= sequence_start l /\
      sequence_stop l = sequence_start l + msize m - 1 /\
      sequence_stop l <= r_sequence_end r - r_sequence_begin r.
Proof.
  intros Hr Hn Hmem Hse.
  pose proof npos_val as Hnp. pose proof modulus_val as Hmod.
  pose proof (proj1 Hmem) as Hsz.
  exists (record_trace detail_score complement fasta matrices name_begin).
  split; [now apply score_record_spec |].
  cbn [record_trace r_visits r_sequence_begin r_sequence_end].
  intros v l Hv Hl.
  destruct (in_all_visits _ _ _ _ _ _ _ _ _ _ Hv)
    as (j & m & b & Hj & Hk & Hb1 & Hb2 & ->).
  cbn [Nat.add] in *. exists m. cbn [window_visit w_matrix w_begin w_end].
  split; [exact Hj |].
  cbn [window_visit w_line] in Hl.
  destruct (significant _); [| discriminate]. injection Hl as <-.
  cbn [match_line sequence_start sequence_stop].
  pose proof (sequence_begin_range fasta name_begin Hsz) as Hsb.
  destruct (sequence_end_found fasta name_begin Hsz Hse) as [Hlt Hlt'].
  pose proof (msize_nonneg m) as Hm0.
  rewrite (wrap_small (b - sequence_begin_of fasta name_begin)) by lia.
  rewrite (wrap_small (b - sequence_begin_of fasta name_begin + 1)) by lia.
  rewrite (wrap_small (b + msize m - sequence_begin_of fasta name_begin))
    by lia.
  repeat split; lia.
Qed.

Lemma line_coordinates_witness :
  Forall renderable [acgt_forward] /\
  enough 20 seq1_fasta [acgt_forward] /\
  in_memory seq1_fasta [acgt_forward] /\
  sequence_end_of seq1_fasta 1 <> npos /\
  exists r,
    score_record sample_score complement_spec [acgt_forward] seq1_fasta 20 1
    = Some r /\
    forall v l, In v (r_visits r) -> w_line v = Some l ->
    exists m,
      nth_error [acgt_forward] (w_matrix v) = Some m /\
      sequence_start l = w_begin v - r_sequence_begin r + 1 /\
      sequence_stop l = w_end v - r_sequence_begin r /\
      1 <= sequence_start l /\
      sequence_stop l = sequence_start l + msize m - 1 /\
      sequence_stop l <= r_sequence_end r - r_sequence_begin r.
Proof.
  assert (H1 : Forall renderable [acgt_forward]) by decide_closed.
  assert (H2 : enough 20 seq1_fasta [acgt_forward]) by decide_closed.
  assert (H3 : in_memory seq1_fasta [acgt_forward]) by decide_closed.
  assert (H4 : sequence_end_of seq1_fasta 1 <> npos) by decide_closed.
  repeat (split; [assumption |]).
  exact (line_coordinates sample_score complement_spec [acgt_forward]
           seq1_fasta 20 1 H1 H2 H3 H4).
Defined.

(** X2.  Every line of a record names the record by the bytes of the span
    [[name_begin, name_end)], which holds at least one byte and no line
    break after its first byte; it names the matrix, gives the strand of
    the matrix, and its matched sequence has as many bytes as the matrix
    has rows. *)
Theorem line_texts
    (detail_score : list Row -> list ascii -> Z -> Z -> Z)
    (complement : ascii -> ascii)
    (matrices : list ScoreMatrix) (fasta : list ascii)
    (n : nat) (name_begin : Z) :
  Forall renderable matrices -> enough n fasta matrices ->
  in_memory fasta matrices ->
  0 <= name_begin <= size fasta ->
  name_end_of fasta name_begin <> npos ->
  sequence_end_of fasta name_begin <> npos ->
  exists r,
    score_record detail_score complement matrices fasta n name_begin = Some r /\
    r_name_begin r < r_name_end r /\
    (forall j, r_name_begin r < j < r_name_end r -> at_ fasta j <> newline) /\
    forall v l, In v (r_visits r) -> w_line v = Some l ->
    exists m,
      nth_error matrices (w_matrix v) = Some m /\
      pattern_name l = name m /\
      sequence_name l = span fasta (r_name_begin r) (r_name_end r) /\
      Z.of_nat (List.length (matched_sequence l)) = msize m /\
      strand l = (if is_reverse_complement m then "-"%char else "+"%char).
Proof.
  intros Hr Hn Hmem Hnb Hne Hse.
  pose proof npos_val as Hnp. pose proof modulus_val as Hmod.
  pose proof (proj1 Hmem) as Hsz.
  exists (record_trace detail_score complement fasta matrices name_begin).
  split; [now apply score_record_spec |].
  cbn [record_trace r_visits r_name_begin r_name_end].
  assert (Hfound : name_begin + 1 <= name_end_of fasta name_begin < size fasta
                   /\ forall j, name_begin + 1 <= j < name_end_of fasta name_begin
                                -> at_ fasta j <> newline).
  { unfold name_end_of in *. rewrite (wrap_small (name_begin + 1)) in * by lia.
    destruct (find_first_of_found fasta newline (name_begin + 1))
      as (H1 & _ & H2); try lia; try assumption. split; assumption. }
  destruct Hfound as [Hrange Hnone].
  split; [lia |]. split; [intros j Hj; apply Hnone; lia |].
  intros v l Hv Hl.
  destruct (in_all_visits _ _ _ _ _ _ _ _ _ _ Hv)
    as (j & m & b & Hj & Hk & Hb1 & Hb2 & ->).
  cbn [Nat.add] in *. exists m. cbn [window_visit w_matrix].
  split; [exact Hj |].
  cbn [window_visit w_line] in Hl.
  destruct (significant _); [| discriminate]. injection Hl as <-.
  cbn [match_line pattern_name sequence_name matched_sequence strand].
  pose proof (sequence_begin_range fasta name_begin Hsz) as Hsb.
  destruct (sequence_end_found fasta name_begin Hsz Hse) as [Hlt Hlt'].
  pose proof (msize_nonneg m) as Hm0.
  rewrite (wrap_small (name_end_of fasta name_begin - name_begin)) by lia.
  repeat split.
  unfold rendered.
  destruct (is_reverse_complement m);
    rewrite ?length_map, ?length_rev; apply substr_length; lia.
Qed.

Lemma line_texts_witness :
  Forall renderable [acgt_forward] /\
  enough 20 seq1_fasta [acgt_forward] /\
  in_memory seq1_fasta [acgt_forward] /\
  0 <= 1 <= size seq1_fasta /\
  name_end_of seq1_fasta 1 <> npos /\
  sequence_end_of seq1_fasta 1 <> npos /\
  exists r,
    score_record sample_score complement_spec [acgt_forward] seq1_fasta 20 1
    = Some r /\
    r_name_begin r < r_name_end r /\
    (forall j, r_name_begin r < j < r_name_end r ->
               at_ seq1_fasta j <> newline) /\
    forall v l, In v (r_visits r) -> w_line v = Some l ->
    exists m,
      nth_error [acgt_forward] (w_matrix v) = Some m /\
      pattern_name l = name m /\
      sequence_name l = span seq1_fasta (r_name_begin r) (r_name_end r) /\
      Z.of_nat (List.length (matched_sequence l)) = msize m /\
      strand l = (if is_reverse_complement m then "-"%char else "+"%char).
Proof.
  assert (H1 : Forall renderable [acgt_forward]) by decide_closed.
  assert (H2 : enough 20 seq1_fasta [acgt_forward]) by decide_closed.
  assert (H3 : in_memory seq1_fasta [acgt_forward]) by decide_closed.
  assert (H4 : 0 <= 1 <= size seq1_fasta) by decide_closed.
  assert (H5 : name_end_of seq1_fasta 1 <> npos) by decide_closed.
  assert (H6 : sequence_end_of seq1_fasta 1 <> npos) by decide_closed.
  repeat (split; [assumption |]).
  exact (line_texts sample_score complement_spec [acgt_forward] seq1_fasta
           20 1 H1 H2 H3 H4 H5 H6).
Defined.

(** X3.  No window of a record holds a line break, except that the first
    byte of the sequence span may be one: the search of line 122 starts at
    the second byte of the span. *)
Theorem windows_hold_no_line_break
    (detail_score : list Row -> list ascii -> Z -> Z -> Z)
    (complement : ascii -> ascii)
    (matrices : list ScoreMatrix) (fasta : list ascii)
    (n : nat) (name_begin : Z) :
  Forall renderable matrices -> enough n fasta matrices ->
  in_memory fasta matrices ->
  sequence_end_of fasta name_begin <> npos ->
  exists r,
    score_record detail_score complement matrices fasta n name_begin = Some r /\
    forall v, In v (r_visits r) ->
    forall j, w_begin v <= j < w_end v -> j <> r_sequence_begin r ->
    at_ fasta j <> newline.
Proof.
  intros Hr Hn Hmem Hse.
  pose proof npos_val as Hnp. pose proof modulus_val as Hmod.
  pose proof (proj1 Hmem) as Hsz.
  exists (record_trace detail_score complement fasta matrices name_begin).
  split; [now apply score_record_spec |].
  cbn [record_trace r_visits r_sequence_begin].
  intros v Hv j Hj Hne.
  destruct (in_all_visits _ _ _ _ _ _ _ _ _ _ Hv)
    as (i & m & b & _ & _ & Hb1 & Hb2 & ->).
  cbn [window_visit w_begin w_end] in Hj.
  pose proof (sequence_begin_range fasta name_begin Hsz) as Hsb.
  unfold sequence_end_of in *.
  rewrite (wrap_small (sequence_begin_of fasta name_begin + 1)) in * by lia.
  destruct (find_first_of_found fasta newline
              (sequence_begin_of fasta name_begin + 1)) as (_ & _ & Hnone);
    try lia; try assumption.
  apply Hnone. lia.
Qed.

Lemma windows_hold_no_line_break_witness :
  Forall renderable [acgt_forward] /\
  enough 20 seq1_fasta [acgt_forward] /\
  in_memory seq1_fasta [acgt_forward] /\
  sequence_end_of seq1_fasta 1 <> npos /\
  exists r,
    score_record sample_score complement_spec [acgt_forward] seq1_fasta 20 1
    = Some r /\
    forall v, In v (r_visits r) ->
    forall j, w_begin v <= j < w_end v -> j <> r_sequence_begin r ->
    at_ seq1_fasta j <> newline.
Proof.
  assert (H1 : Forall renderable [acgt_forward]) by decide_closed.
  assert (H2 : enough 20 seq1_fasta [acgt_forward]) by decide_closed.
  assert (H3 : in_memory seq1_fasta [acgt_forward]) by decide_closed.
  assert (H4 : sequence_end_of seq1_fasta 1 <> npos) by decide_closed.
  repeat (split; [assumption |]).
  exact (windows_hold_no_line_break sample_score complement_spec
           [acgt_forward] seq1_fasta 20 1 H1 H2 H3 H4).
Defined.

(** ** The records scored by a call *)

Section CallFacts.

Variable detail_score : list Row -> list ascii -> Z -> Z -> Z.
Variable complement : ascii -> ascii.
Variable matrices : list ScoreMatrix.
Variable fasta : list ascii.

Hypothesis Hsz : size fasta < npos.

Lemma score_record_name_begin (n : nat) (name_begin : Z) (r : RecordTrace) :
  score_record detail_score complement matrices fasta n name_begin = Some r ->
  r_name_begin r = name_begin /\
  r_sequence_end r = sequence_end_of fasta name_begin.
Proof.
  unfold score_record. destruct (matrices_loop _ _ _ _ _ _ _ _ _ _);
    cbn [bind]; [| discriminate].
  intros H. injection H as <-. split; reflexivity.
Qed.

(** Whatever the buffer, a record scored by a call has its header marker
    inside the buffer and before the end of the region. *)
Lemma score_loop_headers (n : nat) (region_end : Z) :
  region_end <= npos ->
  forall (fuel : nat) (region_begin : Z) (rs : list RecordTrace),
  0 <= region_begin ->
  score_loop detail_score complement matrices fasta n fuel region_begin
    region_end = Some rs ->
  Forall (fun r => 0 <= r_name_begin r - 1 < size fasta /\
                   r_name_begin r - 1 < region_end /\
                   at_ fasta (r_name_begin r - 1) = gt_char) rs.
Proof.
  intros He. pose proof npos_val as Hnp. pose proof modulus_val as Hmod.
  assert (Hmem : in_memory fasta []) by (split; [exact Hsz | constructor]).
  induction fuel as [|fuel IH]; intros region_begin rs Hb H;
    cbn [score_loop] in H; [discriminate |].
  destruct (next_header [] fasta Hmem region_begin region_end Hb He)
    as [[Hstop _] | (Hgo & Hp & Hpe & Hat & _)];
    rewrite ?Hstop, ?Hgo in H.
  - injection H as <-. constructor.
  - set (p := find_first_of fasta gt_char region_begin) in *.
    rewrite (wrap_small (p + 1)) in H by lia.
    destruct (score_record _ _ _ _ _ (p + 1)) as [r |] eqn:Hrec;
      cbn [bind] in H; [| discriminate].
    destruct (score_loop _ _ _ _ _ fuel _ _) as [rest |] eqn:Hrest;
      cbn [bind] in H; [| discriminate].
    injection H as <-.
    destruct (score_record_name_begin n (p + 1) r Hrec) as [Hnb _].
    constructor.
    + rewrite Hnb. replace (p + 1 - 1) with p by lia. repeat split; try lia.
      exact Hat.
    + apply (IH _ rest (proj1 (wrap_range _)) Hrest).
Qed.

End CallFacts.

(** X4.  On a buffer whose records are terminated, a call returns, and the
    records it scored are those of header markers that lie in its region
    [[region_begin, region_end)], each scored once, in increasing order of
    position. *)
Theorem scored_headers_in_region
    (detail_score : list Row -> list ascii -> Z -> Z -> Z)
    (complement : ascii -> ascii)
    (matrices : list ScoreMatrix) (fasta : list ascii)
    (n : nat) (region_begin region_end : Z) :
  Forall renderable matrices -> in_memory fasta matrices ->
  terminated fasta -> enough n fasta matrices ->
  0 <= region_begin -> region_end <= npos ->
  exists out,
    score detail_score complement matrices fasta n region_begin region_end
    = Some out /\
    Forall (fun r => region_begin <= r_name_begin r - 1 < region_end /\
                     at_ fasta (r_name_begin r - 1) = gt_char) out /\
    StronglySorted Z.lt (map r_name_begin out).
Proof.
  intros Hr Hmem Hterm Hn Hb He. unfold score.
  pose proof (size_nonneg fasta) as H0.
  destruct (score_loop_terminated detail_score complement matrices fasta
              Hr Hmem n region_end Hterm Hn He n region_begin Hb)
    as (out & Hout & Hall & Hs); [destruct Hn; lia | destruct Hn; lia |].
  exists out. split; [exact Hout |].
  pose proof (score_loop_headers detail_score complement matrices fasta
                (proj1 Hmem) n region_end He n region_begin out Hb Hout)
    as Hhead.
  split.
  - rewrite Forall_forall in *. intros r Hin.
    destruct (Hall r Hin) as [H1 _]. destruct (Hhead r Hin) as (_ & H2 & H3).
    repeat split; try lia. exact H3.
  - apply StronglySorted_map
      with (R := fun a b => r_name_begin a < r_name_begin b);
      [exact Hs | auto].
Qed.

Lemma scored_headers_in_region_witness :
  Forall renderable [acgt_forward] /\ in_memory seq1_fasta [acgt_forward] /\
  terminated seq1_fasta /\ enough 20 seq1_fasta [acgt_forward] /\
  0 <= 0 /\ 4 <= npos /\
  exists out,
    score sample_score complement_spec [acgt_forward] seq1_fasta 20 0 4
    = Some out /\
    Forall (fun r => 0 <= r_name_begin r - 1 < 4 /\
                     at_ seq1_fasta (r_name_begin r - 1) = gt_char) out /\
    StronglySorted Z.lt (map r_name_begin out).
Proof.
  assert (H1 : Forall renderable [acgt_forward]) by decide_closed.
  assert (H2 : in_memory seq1_fasta [acgt_forward]) by decide_closed.
  assert (H3 : terminated seq1_fasta)
    by (apply terminatedb_sound; vm_compute; reflexivity).
  assert (H4 : enough 20 seq1_fasta [acgt_forward]) by decide_closed.
  assert (H5 : 0 <= 0) by lia.
  assert (H6 : 4 <= npos) by decide_closed.
  repeat (split; [assumption |]).
  exact (scored_headers_in_region sample_score complement_spec [acgt_forward]
           seq1_fasta 20 0 4 H1 H2 H3 H4 H5 H6).
Defined.

(** X5.  On a buffer whose records are terminated no call reads a window
    outside the buffer: every window a call evaluates lies inside the
    sequence span of its record, and the span ends before the end of the
    buffer, also when the span lies after the end of the call's region. *)
Theorem windows_inside_buffer
    (detail_score : list Row -> list ascii -> Z -> Z -> Z)
    (complement : ascii -> ascii)
    (matrices : list ScoreMatrix) (fasta : list ascii)
    (n : nat) (region_begin region_end : Z) :
  Forall renderable matrices -> in_memory fasta matrices ->
  terminated fasta -> enough n fasta matrices ->
  0 <= region_begin -> region_end <= npos ->
  exists out,
    score detail_score complement matrices fasta n region_begin region_end
    = Some out /\
    forall r v, In r out -> In v (r_visits r) ->
    0 <= r_sequence_begin r <= w_begin v /\
    w_begin v <= w_end v /\
    w_end v <= r_sequence_end r /\
    r_sequence_end r < size fasta.
Proof.
  intros Hr Hmem Hterm Hn Hb He. unfold score.
  pose proof (size_nonneg fasta) as H0. pose proof (proj1 Hmem) as Hsz.
  destruct (score_loop_terminated detail_score complement matrices fasta
              Hr Hmem n region_end Hterm Hn He n region_begin Hb)
    as (out & Hout & Hall & _); [destruct Hn; lia | destruct Hn; lia |].
  exists out. split; [exact Hout |].
  pose proof (score_loop_headers detail_score complement matrices fasta
                Hsz n region_end He n region_begin out Hb Hout) as Hhead.
  rewrite Forall_forall in Hall, Hhead.
  intros r v Hin Hv.
  destruct (Hall r Hin) as [_ Hrt]. destruct (Hhead r Hin) as (Hp & _ & Hat).
  destruct (Hterm _ Hp Hat) as [_ Hse].
  replace (r_name_begin r - 1 + 1) with (r_name_begin r) in Hse by lia.
  rewrite Hrt in Hv |- *.
  cbn [record_trace r_visits r_sequence_begin r_sequence_end] in *.
  destruct (in_all_visits _ _ _ _ _ _ _ _ _ _ Hv)
    as (j & m & b & _ & _ & Hb1 & Hb2 & ->).
  cbn [window_visit w_begin w_end].
  pose proof (sequence_begin_range fasta (r_name_begin r) Hsz) as Hsb.
  destruct (sequence_end_found fasta (r_name_begin r) Hsz) as [_ Hlt]; [lia |].
  pose proof (msize_nonneg m). lia.
Qed.

Lemma windows_inside_buffer_witness :
  Forall renderable [acgt_forward] /\ in_memory seq1_fasta [acgt_forward] /\
  terminated seq1_fasta /\ enough 20 seq1_fasta [acgt_forward] /\
  0 <= 0 /\ 4 <= npos /\
  exists out,
    score sample_score complement_spec [acgt_forward] seq1_fasta 20 0 4
    = Some out /\
    forall r v, In r out -> In v (r_visits r) ->
    0 <= r_sequence_begin r <= w_begin v /\
    w_begin v <= w_end v /\
    w_end v <= r_sequence_end r /\
    r_sequence_end r < size seq1_fasta.
Proof.
  assert (H1 : Forall renderable [acgt_forward]) by decide_closed.
  assert (H2 : in_memory seq1_fasta [acgt_forward]) by decide_closed.
  assert (H3 : terminated seq1_fasta)
    by (apply terminatedb_sound; vm_compute; reflexivity).
  assert (H4 : enough 20 seq1_fasta [acgt_forward]) by decide_closed.
  assert (H5 : 0 <= 0) by lia.
  assert (H6 : 4 <= npos) by decide_closed.
  repeat (split; [assumption |]).
  exact (windows_inside_buffer sample_score complement_spec [acgt_forward]
           seq1_fasta 20 0 4 H1 H2 H3 H4 H5 H6).
Defined.

(** ** Regions without a header, and buffers without one *)

(** X6.  A call on a region that holds no header marker scores nothing and
    returns at once, whatever the rest of the buffer holds. *)
Theorem region_without_header
    (detail_score : list Row -> list ascii -> Z -> Z -> Z)
    (complement : ascii -> ascii)
    (matrices : list ScoreMatrix) (fasta : list ascii)
    (n : nat) (region_begin region_end : Z) :
  size fasta < npos -> 0 <= region_begin -> region_end <= npos ->
  (forall j, region_begin <= j < region_end -> at_ fasta j <> gt_char) ->
  score detail_score complement matrices fasta (S n) region_begin region_end
  = Some [].
Proof.
  intros Hsz Hb He Hnone. unfold score. cbn [score_loop].
  assert (Hmem : in_memory fasta []) by (split; [exact Hsz | constructor]).
  destruct (next_header [] fasta Hmem region_begin region_end Hb He)
    as [[Hstop _] | (_ & Hp & Hpe & Hat & _)].
  - now rewrite Hstop.
  - exfalso. apply (Hnone (find_first_of fasta gt_char region_begin)); [lia |].
    exact Hat.
Qed.

Lemma region_without_header_witness :
  size seq1_fasta < npos /\ 0 <= 1 /\ 15 <= npos /\
  (forall j, 1 <= j < 15 -> at_ seq1_fasta j <> gt_char) /\
  score sample_score complement_spec [acgt_forward] seq1_fasta 1 1 15
  = Some [].
Proof.
  assert (H1 : size seq1_fasta < npos) by decide_closed.
  assert (H2 : 0 <= 1) by lia.
  assert (H3 : 15 <= npos) by decide_closed.
  assert (H4 : forall j, 1 <= j < 15 -> at_ seq1_fasta j <> gt_char).
  { intros j Hj Hat.
    assert (Hin : In j (headers_in seq1_fasta 1 15))
      by (apply headers_in_iff; split; assumption).
    vm_compute in Hin. exact Hin. }
  repeat (split; [assumption |]).
  exact (region_without_header sample_score complement_spec [acgt_forward]
           seq1_fasta 0 1 15 H1 H2 H3 H4).
Defined.

Lemma run_threads_without_header
    (detail_score : list Row -> list ascii -> Z -> Z -> Z)
    (complement : ascii -> ascii)
    (matrices : list ScoreMatrix) (fasta : list ascii)
    (n : nat) (schedule : list (list (Z * Z))) :
  size fasta < npos -> (forall j, at_ fasta j <> gt_char) ->
  Forall (Forall (fun r => 0 <= fst r /\ snd r <= npos)) schedule ->
  exists per_thread,
    run_threads detail_score complement matrices fasta (S n) schedule
    = Some per_thread /\
    List.concat per_thread = [].
Proof.
  intros Hsz Hnone Hall.
  induction Hall as [|regions schedule Hregions _ IH]; cbn [run_threads].
  - exists []. split; reflexivity.
  - destruct IH as (more & Hmore & Hnil).
    assert (Hw : worker detail_score complement matrices fasta (S n) regions
                 = Some []).
    { induction Hregions as [|[rb re] regions [Hb He] _ IHr]; cbn [worker];
        [reflexivity |].
      unfold score_fasta. cbn [fst snd] in Hb, He.
      rewrite region_without_header by (try assumption; intros; apply Hnone).
      rewrite IHr. reflexivity. }
    rewrite Hw, Hmore. cbn [bind]. eexists. split; [reflexivity |].
    cbn [List.concat ss_of flat_map app]. exact Hnil.
Qed.

(** X7.  For an input without any header marker and an output that can be
    opened, [process_fasta] writes the header line and nothing else,
    whatever the ranges handed to the threads. *)
Theorem headerless_input_writes_header_only
    (detail_score : list Row -> list ascii -> Z -> Z -> Z)
    (complement : ascii -> ascii) (show_double : nat -> float -> list ascii)
    (fs : FileSystem) (n : nat) (schedule : list (list (Z * Z)))
    (matrices : list ScoreMatrix)
    (fasta_file_path output_file_path : list ascii) (fasta : list ascii) :
  contents fs fasta_file_path = inr fasta ->
  writable fs output_file_path = true ->
  size fasta < npos -> (forall j, at_ fasta j <> gt_char) ->
  Forall (Forall (fun r => 0 <= fst r /\ snd r <= npos)) schedule ->
  exists run,
    process_fasta detail_score complement show_double fs (S n) schedule
      matrices fasta_file_path output_file_path = Returned run /\
    file run = Some [header_line].
Proof.
  intros Hin Hout Hsz Hnone Hall.
  unfold process_fasta, get_file_contents. rewrite Hin, Hout.
  destruct (run_threads_without_header detail_score complement matrices fasta
              n schedule Hsz Hnone Hall) as (per_thread & Hrun & Hnil).
  rewrite Hrun. eexists. split; [reflexivity |].
  cbn [file]. now rewrite Hnil.
Qed.

Lemma headerless_input_writes_header_only_witness :
  contents headerless_fs (bytes "in.fa") = inr headerless_fasta /\
  writable headerless_fs (bytes "out.txt") = true /\
  size headerless_fasta < npos /\
  (forall j, at_ headerless_fasta j <> gt_char) /\
  Forall (Forall (fun r => 0 <= fst r /\ snd r <= npos)) [[(0, 10)]] /\
  exists run,
    process_fasta sample_score complement_spec sample_show_double
      headerless_fs 1 [[(0, 10)]] [acgt_forward] (bytes "in.fa")
      (bytes "out.txt") = Returned run /\
    file run = Some [header_line].
Proof.
  assert (H1 : contents headerless_fs (bytes "in.fa") = inr headerless_fasta)
    by reflexivity.
  assert (H2 : writable headerless_fs (bytes "out.txt") = true)
    by reflexivity.
  assert (H3 : size headerless_fasta < npos) by decide_closed.
  assert (H4 : forall j, at_ headerless_fasta j <> gt_char).
  { intros j Hat.
    destruct (Z_lt_ge_dec j 0) as [Hneg | Hpos].
    - unfold at_ in Hat. replace (Z.to_nat j) with 0%nat in Hat by lia.
      discriminate Hat.
    - assert (Hlt : j < size headerless_fasta)
        by (apply header_in_buffer; [lia | assumption]).
      assert (Hin : In j (headers_in headerless_fasta 0
                            (size headerless_fasta)))
        by (apply headers_in_iff; split; [lia | assumption]).
      vm_compute in Hin. exact Hin. }
  assert (H5 : Forall (Forall (fun r => 0 <= fst r /\ snd r <= npos))
                 [[(0, 10)]]) by decide_closed.
  repeat (split; [assumption |]).
  exact (headerless_input_writes_header_only sample_score complement_spec
           sample_show_double headerless_fs 0 [[(0, 10)]] [acgt_forward]
           (bytes "in.fa") (bytes "out.txt") headerless_fasta
           H1 H2 H3 H4 H5).
Defined.

(** ** Cutting a region in two *)

(** X8.  On a clean buffer, cutting a region at any index gives two calls
    whose records, one list after the other, are the records of the call on
    the whole region: a cut neither loses nor repeats a record, wherever it
    falls. *)
Theorem region_split
    (detail_score : list Row -> list ascii -> Z -> Z -> Z)
    (complement : ascii -> ascii)
    (matrices : list ScoreMatrix) (fasta : list ascii)
    (n : nat) (region_begin cut region_end : Z) :
  clean fasta -> Forall renderable matrices -> in_memory fasta matrices ->
  enough n fasta matrices ->
  0 <= region_begin <= cut -> cut <= region_end <= size fasta ->
  exists left right,
    score detail_score complement matrices fasta n region_begin cut
    = Some left /\
    score detail_score complement matrices fasta n cut region_end
    = Some right /\
    score detail_score complement matrices fasta n region_begin region_end
    = Some (left ++ right).
Proof.
  intros Hclean Hr Hmem Hn Hb He.
  rewrite !(score_clean detail_score complement matrices fasta Hr Hmem)
    by (try assumption; lia).
  eexists. eexists. split; [reflexivity |]. split; [reflexivity |].
  rewrite <- map_app. do 2 f_equal.
  unfold headers_in. rewrite (range_split region_begin cut region_end) by lia.
  apply filter_app.
Qed.

Lemma region_split_witness :
  clean pair_fasta /\ Forall renderable [acgt_forward] /\
  in_memory pair_fasta [acgt_forward] /\ enough 30 pair_fasta [acgt_forward] /\
  0 <= 0 <= 11 /\ 11 <= 20 <= size pair_fasta /\
  exists left right,
    score sample_score complement_spec [acgt_forward] pair_fasta 30 0 11
    = Some left /\
    score sample_score complement_spec [acgt_forward] pair_fasta 30 11 20
    = Some right /\
    score sample_score complement_spec [acgt_forward] pair_fasta 30 0 20
    = Some (left ++ right).
Proof.
  assert (H1 : clean pair_fasta)
    by (apply cleanb_sound; vm_compute; reflexivity).
  assert (H2 : Forall renderable [acgt_forward]) by decide_closed.
  assert (H3 : in_memory pair_fasta [acgt_forward]) by decide_closed.
  assert (H4 : enough 30 pair_fasta [acgt_forward]) by decide_closed.
  assert (H5 : 0 <= 0 <= 11) by lia.
  assert (H6 : 11 <= 20 <= size pair_fasta) by decide_closed.
  repeat (split; [assumption |]).
  exact (region_split sample_score complement_spec [acgt_forward] pair_fasta
           30 0 11 20 H1 H2 H3 H4 H5 H6).
Defined.

(** ** Records without their second line break *)

(** X9.  When the first header marker of a region starts a record whose
    sequence has no closing line break, and there is at least one matrix,
    the call does not return: the window loop of the first matrix runs
    under the guard [end <= npos]. *)
Theorem unterminated_record_never_returns
    (detail_score : list Row -> list ascii -> Z -> Z -> Z)
    (complement : ascii -> ascii)
    (m : ScoreMatrix) (ms : list ScoreMatrix) (fasta : list ascii)
    (region_begin region_end : Z) :
  size fasta < npos -> 0 <= region_begin -> region_end <= npos ->
  find_first_of fasta gt_char region_begin < region_end ->
  sequence_end_of fasta (find_first_of fasta gt_char region_begin + 1) = npos ->
  forall n : nat,
  score detail_score complement (m :: ms) fasta n region_begin region_end
  = None.
Proof.
  intros Hsz Hb He Hlt Hse [|n]; [reflexivity |].
  pose proof npos_val as Hnp. pose proof modulus_val as Hmod.
  unfold score. cbn [score_loop].
  set (p := find_first_of fasta gt_char region_begin) in *.
  destruct (Z.geb_spec p region_end) as [Hge | _]; [lia |].
  assert (Hp : 0 <= p).
  { destruct (find_first_of_spec fasta gt_char region_begin Hb ltac:(lia))
      as [[H _] | [H _]]; fold p in H; lia. }
  rewrite (wrap_small (p + 1)) by lia.
  rewrite score_record_unterminated by exact Hse. reflexivity.
Qed.

Lemma unterminated_record_never_returns_witness :
  size unterminated_fasta < npos /\ 0 <= 0 /\ 7 <= npos /\
  find_first_of unterminated_fasta gt_char 0 < 7 /\
  sequence_end_of unterminated_fasta
    (find_first_of unterminated_fasta gt_char 0 + 1) = npos /\
  forall n : nat,
  score sample_score complement_spec [acgt_forward] unterminated_fasta n 0 7
  = None.
Proof.
  assert (H1 : size unterminated_fasta < npos) by decide_closed.
  assert (H2 : 0 <= 0) by lia.
  assert (H3 : 7 <= npos) by decide_closed.
  assert (H4 : find_first_of unterminated_fasta gt_char 0 < 7)
    by decide_closed.
  assert (H5 : sequence_end_of unterminated_fasta
                 (find_first_of unterminated_fasta gt_char 0 + 1) = npos)
    by reflexivity.
  repeat (split; [assumption |]).
  exact (unterminated_record_never_returns sample_score complement_spec
           acgt_forward [] unterminated_fasta 0 7 H1 H2 H3 H4 H5).
Defined.

(** X10.  With an empty matrix list the same record makes the scan start
    over: [region_begin = sequence_end + 1] wraps from [npos] to 0, so a
    call on a region that starts at 0 finds the same header again and does
    not return. *)
Theorem unterminated_record_restarts_scan
    (detail_score : list Row -> list ascii -> Z -> Z -> Z)
    (complement : ascii -> ascii) (fasta : list ascii) (region_end : Z) :
  size fasta < npos -> region_end <= npos ->
  find_first_of fasta gt_char 0 < region_end ->
  sequence_end_of fasta (find_first_of fasta gt_char 0 + 1) = npos ->
  forall n : nat,
  score detail_score complement [] fasta n 0 region_end = None.
Proof.
  intros Hsz He Hlt Hse n.
  pose proof npos_val as Hnp. pose proof modulus_val as Hmod.
  unfold score. generalize n at 2. intros fuel.
  induction fuel as [|fuel IH]; cbn [score_loop]; [reflexivity |].
  set (p := find_first_of fasta gt_char 0) in *.
  destruct (Z.geb_spec p region_end) as [Hge | _]; [lia |].
  assert (Hp : 0 <= p).
  { destruct (find_first_of_spec fasta gt_char 0 ltac:(lia) ltac:(lia))
      as [[H _] | [H _]]; fold p in H; lia. }
  rewrite (wrap_small (p + 1)) by lia.
  unfold score_record. cbn [matrices_loop bind r_sequence_end].
  fold (name_end_of fasta (p + 1)).
  fold (sequence_begin_of fasta (p + 1)).
  fold (sequence_end_of fasta (p + 1)).
  rewrite Hse, wrap_npos_succ, IH. reflexivity.
Qed.

Lemma unterminated_record_restarts_scan_witness :
  size unterminated_fasta < npos /\ 7 <= npos /\
  find_first_of unterminated_fasta gt_char 0 < 7 /\
  sequence_end_of unterminated_fasta
    (find_first_of unterminated_fasta gt_char 0 + 1) = npos /\
  forall n : nat,
  score sample_score complement_spec [] unterminated_fasta n 0 7 = None.
Proof.
  assert (H1 : size unterminated_fasta < npos) by decide_closed.
  assert (H3 : 7 <= npos) by decide_closed.
  assert (H4 : find_first_of unterminated_fasta gt_char 0 < 7)
    by decide_closed.
  assert (H5 : sequence_end_of unterminated_fasta
                 (find_first_of unterminated_fasta gt_char 0 + 1) = npos)
    by reflexivity.
  repeat (split; [assumption |]).
  exact (unterminated_record_restarts_scan sample_score complement_spec
           unterminated_fasta 7 H1 H3 H4 H5).
Defined.

(** ** Small buffers, and the parallel path against one call *)

(** X11.  A buffer of at most [grainsize] = 8400 bytes is never split:
    [parallel_for] runs the body once, on the whole buffer, and not at all
    on an empty buffer. *)
Theorem small_buffer_single_range (N : Z) (regions : list (Z * Z)) :
  0 <= N <= grainsize -> dispatched N regions ->
  regions = if 0 <? N then [(0, N)] else [].
Proof.
  intros HN Hd. unfold dispatched, Tbb.executed in Hd.
  rewrite to_int_small in Hd
    by (unfold grainsize, Tbb.int_max in *; change (2 ^ 31) with 2147483648;
        lia).
  destruct (Z.ltb_spec 0 N) as [Hpos | Hzero]; [| exact Hd].
  inversion Hd as [r Hr | r left right Hdiv _ _ Hr]; subst.
  - reflexivity.
  - unfold Tbb.is_divisible in Hdiv. cbn [fst snd] in Hdiv. lia.
Qed.

Lemma small_buffer_single_range_witness :
  0 <= 15 <= grainsize /\ dispatched 15 [(0, 15)] /\
  [(0, 15)] = if 0 <? 15 then [(0, 15)] else [].
Proof.
  assert (H1 : 0 <= 15 <= grainsize) by decide_closed.
  assert (H2 : dispatched 15 [(0, 15)]) by apply Tbb.leaves_whole.
  repeat (split; [assumption |]).
  exact (small_buffer_single_range 15 [(0, 15)] H1 H2).
Defined.

(** A record whose name has no closing line break takes the first line
    break of the buffer for the end of its sequence.  In a clean buffer
    that record is the only one. *)
Lemma clean_single_header (fasta : list ascii) (p : Z) :
  clean fasta -> size fasta < npos ->
  0 <= p < size fasta -> at_ fasta p = gt_char ->
  name_end_of fasta (p + 1) = npos ->
  headers_in fasta 0 (size fasta) = [p].
Proof.
  intros Hclean Hsz Hp Hat Hne.
  pose proof npos_val as Hnp. pose proof modulus_val as Hmod.
  assert (Hle : forall c pos, 0 <= pos -> find_first_of fasta c pos <= npos).
  { intros c pos Hpos.
    destruct (find_first_of_spec fasta c pos Hpos) as [[H _] | [H _]]; lia. }
  (* no line break from p + 2 on *)
  assert (F1 : forall j, p + 2 <= j < size fasta -> at_ fasta j <> newline).
  { unfold name_end_of in Hne. rewrite (wrap_small (p + 1 + 1)) in Hne by lia.
    destruct (find_first_of_spec fasta newline (p + 1 + 1)) as [[_ H] | [H _]];
      try lia.
    intros j Hj. apply H. lia. }
  (* the sequence of p ends at p + 1 *)
  assert (Hsb : sequence_begin_of fasta (p + 1) = 0).
  { unfold sequence_begin_of. rewrite Hne. apply wrap_npos_succ. }
  destruct (Hclean p Hp Hat) as [Hlo Hhi].
  pose proof (Hle gt_char (p + 1) ltac:(lia)) as Hgt.
  assert (Hse : sequence_end_of fasta (p + 1) = find_first_of fasta newline 1).
  { unfold sequence_end_of. rewrite Hsb. reflexivity. }
  rewrite Hse in Hlo, Hhi.
  destruct (find_first_of_found fasta newline 1) as (Rs & As & Ns);
    try lia.
  set (s := find_first_of fasta newline 1) in *.
  assert (Es : s = p + 1).
  { destruct (Z_lt_ge_dec s (p + 2)) as [Hlt | Hge]; [lia |].
    exfalso. apply (F1 s); [lia | exact As]. }
  assert (F2 : forall j, 1 <= j < p + 1 -> at_ fasta j <> newline).
  { intros j Hj. apply Ns. lia. }
  assert (Hnone : forall q, 0 <= q < size fasta -> at_ fasta q = gt_char ->
                  q = p).
  { intros q Hq Hatq.
    destruct (Hclean q Hq Hatq) as [Hqlo Hqhi].
    pose proof (Hle gt_char (q + 1) ltac:(lia)) as Hqgt.
    destruct (Z.lt_trichotomy q p) as [Hlt | [Heq | Hgt']]; [| exact Heq |].
    - (* a header before p: its name ends at p + 1, its sequence nowhere *)
      exfalso.
      assert (Hnq : name_end_of fasta (q + 1) = p + 1).
      { unfold name_end_of. rewrite (wrap_small (q + 1 + 1)) by lia.
        destruct (find_first_of_spec fasta newline (q + 1 + 1))
          as [[_ H] | (R & A & N)]; try lia.
        - exfalso. apply (H (p + 1)); [lia |]. rewrite <- Es. exact As.
        - destruct (Z.lt_trichotomy (find_first_of fasta newline (q + 1 + 1))
                      (p + 1)) as [L | [E | G]]; [| exact E |].
          + exfalso. apply (F2 (find_first_of fasta newline (q + 1 + 1)));
              [lia | exact A].
          + exfalso. apply (N (p + 1)); [lia |]. rewrite <- Es. exact As. }
      assert (Hsq : sequence_end_of fasta (q + 1) = npos).
      { unfold sequence_end_of, sequence_begin_of. rewrite Hnq.
        rewrite (wrap_small (p + 1 + 1)) by lia.
        rewrite (wrap_small (p + 1 + 1 + 1)) by lia.
        destruct (find_first_of_spec fasta newline (p + 1 + 1 + 1))
          as [[H _] | (R & A & _)]; try lia.
        exfalso.
        apply (F1 (find_first_of fasta newline (p + 1 + 1 + 1)));
          [lia | exact A]. }
      rewrite Hsq in Hqhi. lia.
    - (* a header after p: its name has no end, its sequence ends at p + 1 *)
      exfalso.
      assert (Hnq : name_end_of fasta (q + 1) = npos).
      { unfold name_end_of. rewrite (wrap_small (q + 1 + 1)) by lia.
        destruct (find_first_of_spec fasta newline (q + 1 + 1))
          as [[H _] | (R & A & _)]; try lia.
        exfalso. apply (F1 (find_first_of fasta newline (q + 1 + 1)));
          [lia | exact A]. }
      assert (Hsq : sequence_end_of fasta (q + 1) = s).
      { unfold sequence_end_of, sequence_begin_of. rewrite Hnq.
        rewrite wrap_npos_succ. reflexivity. }
      rewrite Hsq in Hqlo. lia. }
  rewrite (headers_in_skip fasta 0 p (size fasta)).
  2: lia.
  2: { intros j Hj Hjs Hc. specialize (Hnone j ltac:(lia) Hc). lia. }
  rewrite (headers_in_cons fasta p (size fasta)) by (try lia; exact Hat).
  rewrite (headers_in_skip fasta (p + 1) (size fasta) (size fasta)).
  - unfold headers_in. now rewrite range_empty by lia.
  - lia.
  - intros j Hj Hjs Hc. specialize (Hnone j ltac:(lia) Hc). lia.
Qed.

Lemma concat_map_nil {A B C : Type} (h : A -> list B) (S : list B -> list C)
    (l : list A) :
  S [] = [] -> List.concat (map h l) = [] ->
  List.concat (map (fun a => S (h a)) l) = [].
Proof.
  intros HS. induction l as [|a l IH]; cbn [map List.concat]; intros H;
    [reflexivity |].
  apply app_eq_nil in H. destruct H as [Ha Hl].
  now rewrite Ha, HS, IH.
Qed.

(** When the threads share one header the file holds that thread's
    stream. *)
Lemma concat_map_single {A B C : Type} (h : A -> list B)
    (S : list B -> list C) (l : list A) (x : B) :
  S [] = [] -> List.concat (map h l) = [x] ->
  List.concat (map (fun a => S (h a)) l) = S [x].
Proof.
  intros HS. induction l as [|a l IH]; cbn [map List.concat]; intros H;
    [discriminate |].
  destruct (h a) as [|b t] eqn:Ha.
  - rewrite HS. cbn [app] in *. now apply IH.
  - cbn [app] in H. injection H as -> Ht.
    apply app_eq_nil in Ht. destruct Ht as [-> Hl].
    rewrite (concat_map_nil h S l HS Hl). now rewrite app_nil_r.
Qed.

(** X12.  On a clean buffer of at most [INT_MAX] bytes, whatever the
    schedule of [parallel_for], the match lines of the output file are a
    permutation of the lines of one call of [Scorer::score] on the whole
    buffer: spreading the ranges over threads changes the order of the
    lines and nothing else. *)
Theorem parallel_lines_of_whole_scan
    (detail_score : list Row -> list ascii -> Z -> Z -> Z)
    (complement : ascii -> ascii) (show_double : nat -> float -> list ascii)
    (fs : FileSystem) (n : nat) (schedule : list (list (Z * Z)))
    (matrices : list ScoreMatrix)
    (fasta_file_path output_file_path : list ascii) (fasta : list ascii) :
  contents fs fasta_file_path = inr fasta ->
  writable fs output_file_path = true ->
  clean fasta -> Forall renderable matrices -> in_memory fasta matrices ->
  enough n fasta matrices -> size fasta <= Tbb.int_max ->
  schedules (size fasta) schedule ->
  exists run lines whole,
    process_fasta detail_score complement show_double fs n schedule matrices
      fasta_file_path output_file_path = Returned run /\
    file run = Some (header_line :: lines) /\
    score detail_score complement matrices fasta n 0 (size fasta)
    = Some whole /\
    Permutation lines (map (render show_double) (ss_of whole)).
Proof.
  intros Hin Hout Hclean Hr Hmem Hn HN (regions & Hd & Hperm).
  pose proof (size_nonneg fasta) as H0. pose proof (proj1 Hmem) as Hsz.
  pose proof (dispatched_chain (size fasta) regions (conj H0 HN) Hd) as Hchain.
  assert (Hbounds : Forall (Forall (fun r => 0 <= fst r /\ snd r <= size fasta))
                      schedule).
  { apply Forall_forall. intros thread Hthread.
    apply Forall_forall. intros r Hin_r.
    assert (Hin_all : In r (List.concat schedule)).
    { apply in_concat. exists thread. now split. }
    apply (Permutation_in _ Hperm) in Hin_all.
    destruct (chain_bounds regions 0 (size fasta) Hchain) as [_ Hall].
    rewrite Forall_forall in Hall. specialize (Hall r Hin_all). lia. }
  assert (Hsmall : size fasta < 2 ^ 63).
  { unfold Tbb.int_max in HN. change (2 ^ 31) with 2147483648 in HN.
    change (2 ^ 63) with 9223372036854775808. lia. }
  unfold process_fasta, get_file_contents. rewrite Hin, Hout.
  rewrite (run_threads_clean detail_score complement matrices fasta Hr Hmem
             Hclean n schedule Hn Hbounds).
  rewrite (score_clean detail_score complement matrices fasta Hr Hmem n 0
             (size fasta) Hclean Hn) by lia.
  eexists. eexists. eexists.
  split; [reflexivity |]. split; [reflexivity |]. split; [reflexivity |].
  apply Permutation_map.
  rewrite (inserted_of_records detail_score complement matrices fasta).
  set (lines_of := record_lines detail_score complement matrices fasta).
  set (headers_of := flat_map (fun r : Z * Z => headers_in fasta (fst r) (snd r))).
  assert (Hheaders : Permutation (List.concat (map headers_of schedule))
                       (headers_in fasta 0 (size fasta))).
  { unfold headers_of. rewrite concat_map_flat_map.
    rewrite (Permutation_flat_map _ Hperm).
    now rewrite (chain_headers fasta regions 0 (size fasta) Hchain). }
  destruct (Forall_Exists_dec
              (fun p => name_end_of fasta (p + 1) <> npos)
              (fun p => match Z.eq_dec (name_end_of fasta (p + 1)) npos with
                        | left e => right (fun H => H e)
                        | right ne => left ne
                        end)
              (headers_in fasta 0 (size fasta))) as [Hall | Hsome].
  - (* every name ends in a line break: no stream turns bad *)
    assert (Hnamed : forall p, 0 <= p < size fasta -> at_ fasta p = gt_char ->
                     name_end_of fasta (p + 1) <> npos).
    { intros p Hp Hat. rewrite Forall_forall in Hall. apply Hall.
      apply headers_in_iff. now split. }
    subst lines_of headers_of.
    rewrite (until_bad_named detail_score complement matrices fasta Hmem
               Hclean Hsmall Hnamed 0 (size fasta)) by lia.
    rewrite (map_ext_in _
               (flat_map (region_lines detail_score complement matrices fasta))).
    2: { intros thread Hthread.
         apply (thread_complete detail_score complement matrices fasta Hmem
                  Hclean Hsmall Hnamed).
         rewrite Forall_forall in Hbounds. now apply Hbounds. }
    rewrite concat_map_flat_map.
    rewrite (Permutation_flat_map _ Hperm).
    unfold region_lines at 1.
    rewrite <- (flat_map_flat_map
                  (record_lines detail_score complement matrices fasta)
                  (fun r => headers_in fasta (fst r) (snd r))).
    rewrite (chain_headers fasta regions 0 (size fasta) Hchain).
    apply Permutation_refl.
  - (* a name without a line break: the buffer holds that one record *)
    apply Exists_exists in Hsome. destruct Hsome as (p & Hp & Hnone).
    apply headers_in_iff in Hp. destruct Hp as [Hp Hat].
    assert (Hne : name_end_of fasta (p + 1) = npos).
    { destruct (Z.eq_dec (name_end_of fasta (p + 1)) npos) as [E | E];
        [exact E | contradiction]. }
    rewrite (clean_single_header fasta p Hclean Hsz Hp Hat Hne) in *.
    apply Permutation_sym, Permutation_length_1_inv in Hheaders.
    rewrite (concat_map_single headers_of
               (fun hs => until_bad (flat_map lines_of hs)) schedule p
               eq_refl Hheaders).
    apply Permutation_refl.
Qed.

Lemma parallel_lines_of_whole_scan_witness :
  contents pair_fs (bytes "in.fa") = inr pair_fasta /\
  writable pair_fs (bytes "out.txt") = true /\
  clean pair_fasta /\ Forall renderable [acgt_forward] /\
  in_memory pair_fasta [acgt_forward] /\ enough 30 pair_fasta [acgt_forward] /\
  size pair_fasta <= Tbb.int_max /\
  schedules (size pair_fasta) [[(0, 20)]] /\
  exists run lines whole,
    process_fasta sample_score complement_spec sample_show_double pair_fs 30
      [[(0, 20)]] [acgt_forward] (bytes "in.fa") (bytes "out.txt")
    = Returned run /\
    file run = Some (header_line :: lines) /\
    score sample_score complement_spec [acgt_forward] pair_fasta 30 0
      (size pair_fasta) = Some whole /\
    Permutation lines (map (render sample_show_double) (ss_of whole)).
Proof.
  assert (H1 : contents pair_fs (bytes "in.fa") = inr pair_fasta)
    by reflexivity.
  assert (H2 : writable pair_fs (bytes "out.txt") = true) by reflexivity.
  assert (H3 : clean pair_fasta)
    by (apply cleanb_sound; vm_compute; reflexivity).
  assert (H4 : Forall renderable [acgt_forward]) by decide_closed.
  assert (H5 : in_memory pair_fasta [acgt_forward]) by decide_closed.
  assert (H6 : enough 30 pair_fasta [acgt_forward]) by decide_closed.
  assert (H7 : size pair_fasta <= Tbb.int_max) by decide_closed.
  assert (H8 : schedules (size pair_fasta) [[(0, 20)]]).
  { exists [(0, 20)]. split; [apply Tbb.leaves_whole | apply Permutation_refl]. }
  repeat (split; [assumption |]).
  exact (parallel_lines_of_whole_scan sample_score complement_spec
           sample_show_double pair_fs 30 [[(0, 20)]] [acgt_forward]
           (bytes "in.fa") (bytes "out.txt") pair_fasta
           H1 H2 H3 H4 H5 H6 H7 H8).
Defined.

(** ** A reverse-complement matrix without rows *)

(** The rendering loop leaves only at [i = begin]: started [d] steps above
    [begin] modulo [2^64], it does not leave within [d] steps. *)
Lemma rc_loop_far (complement : ascii -> ascii) (fasta : list ascii)
    (begin : Z) :
  forall (n : nat) (i : Z),
  Z.of_nat n <= (i - begin) mod modulus ->
  rc_loop complement fasta n i begin = None.
Proof.
  pose proof modulus_val as Hmod.
  induction n as [|n IH]; intros i Hd; cbn [rc_loop]; [reflexivity |].
  destruct (Z.eqb_spec i begin) as [-> | Hne].
  - rewrite Z.sub_diag, Z.mod_0_l in Hd by lia. lia.
  - rewrite IH; [reflexivity |].
    unfold wrap. rewrite Zminus_mod_idemp_l.
    replace (i - 1 - begin) with (i - begin - 1) by lia.
    pose proof (Z.div_mod (i - begin) modulus ltac:(lia)) as Hdm.
    pose proof (Z.mod_pos_bound (i - begin) modulus ltac:(lia)) as Hb.
    assert (E : (i - begin) mod modulus - 1 = (i - begin - 1) mod modulus).
    { apply Z.mod_unique with (q := (i - begin) / modulus); [left; lia | lia]. }
    rewrite <- E. lia.
Qed.

(** X13.  For a reverse-complement matrix without rows and a significant
    window, the rendering loop starts at [begin - 1], below the index
    [begin] at which it leaves, and walks down through index 0 and around:
    the loop body does not return within [2^64 - 1] steps. *)
Theorem rowless_reverse_matrix_overruns
    (detail_score : list Row -> list ascii -> Z -> Z -> Z)
    (complement : ascii -> ascii) (fasta : list ascii)
    (n k : nat) (m : ScoreMatrix)
    (name_begin name_end sequence_begin begin end_ : Z) :
  is_reverse_complement m = true -> msize m = 0 ->
  significant (nth (Z.to_nat (detail_score (matrix m) fasta begin end_))
                 (pvalues m) PrimFloat.nan) = true ->
  0 <= begin < modulus -> Z.of_nat n < modulus ->
  score_window detail_score complement fasta n k m name_begin name_end
    sequence_begin begin end_ = None.
Proof.
  intros Hrc Hw Hsig Hb Hn. pose proof modulus_val as Hmod.
  unfold score_window. rewrite Hsig, Hrc, Hw.
  rewrite rc_loop_far; [reflexivity |].
  unfold wrap. rewrite Z.add_0_r, (Z.mod_small begin) by lia.
  rewrite Zminus_mod_idemp_l.
  replace (begin - 1 - begin) with (-1) by lia.
  change ((-1) mod modulus) with (modulus - 1). lia.
Qed.

Lemma rowless_reverse_matrix_overruns_witness :
  is_reverse_complement empty_reverse = true /\ msize empty_reverse = 0 /\
  significant (nth (Z.to_nat (sample_score (matrix empty_reverse) seq1_fasta
                                6 6))
                 (pvalues empty_reverse) PrimFloat.nan) = true /\
  0 <= 6 < modulus /\ Z.of_nat 1000 < modulus /\
  score_window sample_score complement_spec seq1_fasta 1000 0 empty_reverse
    1 5 6 6 6 = None.
Proof.
  assert (H1 : is_reverse_complement empty_reverse = true) by reflexivity.
  assert (H2 : msize empty_reverse = 0) by reflexivity.
  assert (H3 : significant
                 (nth (Z.to_nat (sample_score (matrix empty_reverse)
                                   seq1_fasta 6 6))
                    (pvalues empty_reverse) PrimFloat.nan) = true)
    by reflexivity.
  assert (H4 : 0 <= 6 < modulus) by decide_closed.
  assert (H5 : Z.of_nat 1000 < modulus) by decide_closed.
  repeat (split; [assumption |]).
  exact (rowless_reverse_matrix_overruns sample_score complement_spec
           seq1_fasta 1000 0 empty_reverse 1 5 6 6 6 H1 H2 H3 H4 H5).
Defined.

(** ** The windows of a sequence span *)

(** X14.  For a record whose sequence search succeeds, the span the scan
    takes for the sequence starts one byte after the end of the name and
    ends at the first line break that lies at least one byte further, so
    it is not empty; and for each matrix of the list the windows scored
    are one per start position at which the window fits in that span:
    [L - W + 1] windows when the width [W] is at most the length [L] of the
    span, none otherwise. *)
Theorem span_window_coverage
    (detail_score : list Row -> list ascii -> Z -> Z -> Z)
    (complement : ascii -> ascii)
    (matrices : list ScoreMatrix) (fasta : list ascii)
    (n : nat) (name_begin : Z) (k : nat) (m : ScoreMatrix) :
  Forall renderable matrices -> enough n fasta matrices ->
  in_memory fasta matrices ->
  sequence_end_of fasta name_begin <> npos ->
  nth_error matrices k = Some m ->
  exists r,
    score_record detail_score complement matrices fasta n name_begin = Some r /\
    r_name_begin r = name_begin /\
    r_name_end r = find_first_of fasta newline (wrap (name_begin + 1)) /\
    r_sequence_begin r = wrap (r_name_end r + 1) /\
    r_sequence_begin r < r_sequence_end r < size fasta /\
    at_ fasta (r_sequence_end r) = newline /\
    (forall j, r_sequence_begin r < j < r_sequence_end r ->
               at_ fasta j <> newline) /\
    let L := r_sequence_end r - r_sequence_begin r in
    let W := msize m in
    let vs := visits_of k (r_visits r) in
    (W <= L -> Z.of_nat (List.length vs) = L - W + 1) /\
    (L < W -> vs = []) /\
    map w_begin vs = range (r_sequence_begin r) (r_sequence_end r - W + 1) /\
    Forall (fun v => w_end v = w_begin v + W) vs.
Proof.
  intros Hr Hn Hmem Hse Hk.
  pose proof npos_val as Hnp. pose proof modulus_val as Hmod.
  pose proof (proj1 Hmem) as Hsz.
  exists (record_trace detail_score complement fasta matrices name_begin).
  split; [now apply score_record_spec |].
  cbn [record_trace r_name_begin r_name_end r_sequence_end r_sequence_begin
         r_visits].
  split; [reflexivity |]. split; [reflexivity |]. split; [reflexivity |].
  pose proof (sequence_begin_range fasta name_begin Hsz) as Hsb.
  destruct (sequence_end_found fasta name_begin Hsz Hse) as [Hlt Hlt'].
  split; [lia |].
  assert (Hfound : at_ fasta (sequence_end_of fasta name_begin) = newline /\
                   forall j, sequence_begin_of fasta name_begin < j
                             < sequence_end_of fasta name_begin ->
                             at_ fasta j <> newline).
  { unfold sequence_end_of in *.
    rewrite (wrap_small (sequence_begin_of fasta name_begin + 1)) in * by lia.
    destruct (find_first_of_found fasta newline
                (sequence_begin_of fasta name_begin + 1)) as (_ & A & N);
      try lia; try assumption.
    split; [exact A |]. intros j Hj. apply N. lia. }
  destruct Hfound as [Hat Hnone].
  split; [exact Hat |]. split; [exact Hnone |].
  cbv zeta.
  pose proof (visits_of_all_visits detail_score complement fasta matrices
                name_begin (name_end_of fasta name_begin)
                (sequence_begin_of fasta name_begin)
                (sequence_end_of fasta name_begin) 0 k m Hk) as Hv.
  cbn [Nat.add] in Hv. rewrite Hv. unfold matrix_visits, window_count.
  set (sb := sequence_begin_of fasta name_begin) in *.
  set (se := sequence_end_of fasta name_begin) in *.
  repeat split.
  - intros Hle. rewrite length_map, positions_length. lia.
  - intros Hlw. replace (Z.to_nat (se - sb - msize m + 1)) with 0%nat by lia.
    reflexivity.
  - rewrite map_map. cbn [window_visit w_begin]. rewrite map_id.
    unfold range. f_equal. lia.
  - apply Forall_forall. intros v Hin. apply in_map_iff in Hin.
    destruct Hin as (b & <- & _). reflexivity.
Qed.

Lemma span_window_coverage_witness :
  Forall renderable [acgt_forward] /\
  enough 20 seq1_fasta [acgt_forward] /\
  in_memory seq1_fasta [acgt_forward] /\
  sequence_end_of seq1_fasta 1 <> npos /\
  nth_error [acgt_forward] 0 = Some acgt_forward /\
  exists r,
    score_record sample_score complement_spec [acgt_forward] seq1_fasta 20 1
    = Some r /\
    r_name_begin r = 1 /\
    r_name_end r = find_first_of seq1_fasta newline (wrap (1 + 1)) /\
    r_sequence_begin r = wrap (r_name_end r + 1) /\
    r_sequence_begin r < r_sequence_end r < size seq1_fasta /\
    at_ seq1_fasta (r_sequence_end r) = newline /\
    (forall j, r_sequence_begin r < j < r_sequence_end r ->
               at_ seq1_fasta j <> newline) /\
    let L := r_sequence_end r - r_sequence_begin r in
    let W := msize acgt_forward in
    let vs := visits_of 0 (r_visits r) in
    (W <= L -> Z.of_nat (List.length vs) = L - W + 1) /\
    (L < W -> vs = []) /\
    map w_begin vs = range (r_sequence_begin r) (r_sequence_end r - W + 1) /\
    Forall (fun v => w_end v = w_begin v + W) vs.
Proof.
  assert (H1 : Forall renderable [acgt_forward]) by decide_closed.
  assert (H2 : enough 20 seq1_fasta [acgt_forward]) by decide_closed.
  assert (H3 : in_memory seq1_fasta [acgt_forward]) by decide_closed.
  assert (H4 : sequence_end_of seq1_fasta 1 <> npos) by decide_closed.
  assert (H5 : nth_error [acgt_forward] 0 = Some acgt_forward) by reflexivity.
  repeat (split; [assumption |]).
  exact (span_window_coverage sample_score complement_spec [acgt_forward]
           seq1_fasta 20 1 0 acgt_forward H1 H2 H3 H4 H5).
Defined.

(** The sample run: the span of [seq1] is [[6, 14)], of length 8, and the
    matrix of width 4 is scored on the 5 windows that start at 6 to 10. *)
Example span_window_coverage_sample :
  option_map (fun r => (r_sequence_begin r, r_sequence_end r,
                        map (fun v => (w_begin v, w_end v))
                          (visits_of 0 (r_visits r))))
    (score_record sample_score complement_spec [acgt_forward] seq1_fasta 20 1)
  = Some (6, 14, [(6, 10); (7, 11); (8, 12); (9, 13); (10, 14)]).
Proof. vm_compute. reflexivity. Qed.

(** ** A name without a line break *)

(** X15.  When the search for the end of the name fails (line 118 gives
    [npos]) the count handed to [ss.write] at line 148 is negative as a
    [streamsize]: the stream refuses every line inserted for the record
    after the matrix name and its tab, and it holds nothing of what is
    inserted afterwards, by this record or by later ones. *)
Theorem unnamed_record_spoils_stream
    (detail_score : list Row -> list ascii -> Z -> Z -> Z)
    (complement : ascii -> ascii) (show_double : nat -> float -> list ascii)
    (matrices : list ScoreMatrix) (fasta : list ascii)
    (n : nat) (name_begin : Z) :
  Forall renderable matrices -> enough n fasta matrices ->
  in_memory fasta matrices -> size fasta < 2 ^ 63 ->
  0 <= name_begin <= size fasta ->
  name_end_of fasta name_begin = npos ->
  sequence_end_of fasta name_begin <> npos ->
  exists r,
    score_record detail_score complement matrices fasta n name_begin = Some r /\
    (forall v l, In v (r_visits r) -> w_line v = Some l ->
     fate l = NameRefused /\ render show_double l = pattern_name l ++ [tab]) /\
    forall later,
      ss_of (r :: later)
      = match lines_of_visits (r_visits r) with
        | [] => ss_of later
        | l :: _ => [l]
        end.
Proof.
  intros Hr Hn Hmem Hsmall Hnb Hne Hse.
  pose proof npos_val as Hnp. pose proof modulus_val as Hmod.
  exists (record_trace detail_score complement fasta matrices name_begin).
  split; [now apply score_record_spec |].
  assert (Hfate : forall l,
            In l (lines_of_visits
                    (r_visits (record_trace detail_score complement fasta
                                 matrices name_begin))) ->
            fate l = NameRefused).
  { intros l Hl. unfold lines_of_visits in Hl.
    cbn [record_trace r_visits] in Hl.
    apply in_flat_map in Hl. destruct Hl as (v & Hv & Hl).
    destruct (in_all_visits _ _ _ _ _ _ _ _ _ _ Hv)
      as (j & m & b & _ & _ & _ & _ & ->).
    cbn [window_visit w_line] in Hl.
    destruct (significant _); [| contradiction].
    destruct Hl as [<- | []]. cbn [match_line fate].
    rewrite Hne, (wrap_small (npos - name_begin)) by lia.
    rewrite write_not_taken; [reflexivity |].
    change (2 ^ 63) with 9223372036854775808 in *. lia. }
  split.
  - intros v l Hv Hl.
    assert (Hin : In l (lines_of_visits
                          (r_visits (record_trace detail_score complement
                                       fasta matrices name_begin)))).
    { unfold lines_of_visits. apply in_flat_map. exists v.
      split; [exact Hv |]. rewrite Hl. now left. }
    split; [now apply Hfate |].
    unfold render. now rewrite (Hfate l Hin).
  - intros later. unfold ss_of. cbn [flat_map].
    destruct (lines_of_visits
                (r_visits (record_trace detail_score complement fasta
                             matrices name_begin))) as [|l ls];
      [reflexivity |].
    cbn [app until_bad]. rewrite (Hfate l); [reflexivity | now left].
Qed.

Lemma unnamed_record_spoils_stream_witness :
  Forall renderable [acgt_forward] /\ enough 20 refused_fasta [acgt_forward] /\
  in_memory refused_fasta [acgt_forward] /\ size refused_fasta < 2 ^ 63 /\
  0 <= 5 <= size refused_fasta /\
  name_end_of refused_fasta 5 = npos /\
  sequence_end_of refused_fasta 5 <> npos /\
  exists r,
    score_record sample_score complement_spec [acgt_forward] refused_fasta 20 5
    = Some r /\
    (forall v l, In v (r_visits r) -> w_line v = Some l ->
     fate l = NameRefused /\
     render sample_show_double l = pattern_name l ++ [tab]) /\
    forall later,
      ss_of (r :: later)
      = match lines_of_visits (r_visits r) with
        | [] => ss_of later
        | l :: _ => [l]
        end.
Proof.
  assert (H1 : Forall renderable [acgt_forward]) by decide_closed.
  assert (H2 : enough 20 refused_fasta [acgt_forward]) by decide_closed.
  assert (H3 : in_memory refused_fasta [acgt_forward]) by decide_closed.
  assert (H4 : size refused_fasta < 2 ^ 63) by decide_closed.
  assert (H5 : 0 <= 5 <= size refused_fasta) by decide_closed.
  assert (H6 : name_end_of refused_fasta 5 = npos) by reflexivity.
  assert (H7 : sequence_end_of refused_fasta 5 <> npos) by decide_closed.
  repeat (split; [assumption |]).
  exact (unnamed_record_spoils_stream sample_score complement_spec
           sample_show_double [acgt_forward] refused_fasta 20 5
           H1 H2 H3 H4 H5 H6 H7).
Defined.

(** The sample run: for the file [ACGT>] and its line break the window
    [[0, 4)] is significant, the write of the name is refused, and the
    output file holds the header line and the matrix name with its tab. *)
Example refused_name_sample :
  match process_fasta sample_score complement_spec sample_show_double
          refused_fs 20 [[(0, 6)]] [acgt_forward] (bytes "in.fa")
          (bytes "out.txt") with
  | Returned run => file run
  | Thrown _ => None
  end
  = Some [header_line; bytes "acgt" ++ [tab]].
Proof. lazy. reflexivity. Qed.
